(** * Minesweeper knowledge engine (src/minesweeper.py)

    A shallow embedding of the classes [Minesweeper], [Sentence] and
    [MinesweeperAI], and the properties of the inference engine.

    Python data is modelled as follows.
    - A cell is a tuple of two Python integers: [Z * Z].
    - A Python [set] of cells is a [gset (Z * Z)]; set equality is Leibniz
      equality, [len] is [size].  Iteration over a set visits the elements
      in the order of [elements]; no statement below depends on that order.
    - [Sentence] objects are mutable and shared by reference: the list
      [self.knowledge], its shallow copy [test] and the loop variables all
      point to the same objects.  The objects live in a [store] (a list,
      addressed by position, growing by allocation) and [knowledge] is a list
      of references into it.
    - [list.remove] raises [ValueError] when nothing matches, and the loops
      that iterate over the live list are index driven and take fuel: results
      are in the type [result]. *)

From Stdlib Require Import ZArith Lia.
From stdpp Require Import gmap sets list.

#[local] Set Warnings "-clear-no-such-hyp".

Abbreviation cell := (Z * Z)%type (only parsing).

(** ** class Minesweeper: the board, as far as the engine's driver uses it *)

Module Minesweeper.

Record t := mk {
  height : Z;
  width : Z;
  mines : gset cell
}.

(** [self.board[i][j]] is [True] exactly for the cells of [self.mines]. *)
Definition board (g : t) (i j : Z) : bool := bool_decide ((i, j) ∈ mines g).

(** [range(x - 1, x + 2)] *)
Definition around (x : Z) : list Z := seqZ (x - 1) 3.

Definition in_bounds (h w : Z) (i j : Z) : bool :=
  bool_decide (0 ≤ i < h)%Z && bool_decide (0 ≤ j < w)%Z.

Definition nearby_step (g : t) (c : cell) (count : Z) (i j : Z) : Z :=
  if bool_decide ((i, j) = c) then count
  else if in_bounds (height g) (width g) i j
       then if board g i j then (count + 1)%Z else count
       else count.

Definition nearby_mines (g : t) (c : cell) : Z :=
  foldl (λ count i, foldl (λ count j, nearby_step g c count i j) count (around c.2))
        0%Z (around c.1).

End Minesweeper.

(** ** class Sentence *)

Module Sentence.

Record t := mk {
  cells : gset cell;
  count : Z
}.

(** [Sentence(cells, count)]: the constructor copies the set. *)
Definition init (cs : gset cell) (n : Z) : t := mk cs n.

(** [__eq__] *)
Definition eqb (s o : t) : bool :=
  bool_decide (cells s = cells o) && bool_decide (count s = count o).

(** The loop [for cell in self.cells: acc.add(cell)] of the two queries. *)
Definition collect (cs : gset cell) : gset cell :=
  foldl (λ acc c, acc ∪ {[c]}) ∅ (elements cs).

(** [known_mines]: [None] is Python's [None] (the function falls off its end). *)
Definition known_mines (s : t) : option (gset cell) :=
  if bool_decide (cells s ≠ ∅) && bool_decide (count s = Z.of_nat (size (cells s)))
  then Some (collect (cells s))
  else None.

Definition known_safes (s : t) : option (gset cell) :=
  if bool_decide (count s = 0%Z) && bool_decide (cells s ≠ ∅)
  then Some (collect (cells s))
  else None.

Definition mark_mine (c : cell) (s : t) : t :=
  if bool_decide (c ∈ cells s)
  then mk (cells s ∖ {[c]}) (count s - 1)
  else s.

Definition mark_safe (c : cell) (s : t) : t :=
  if bool_decide (c ∈ cells s)
  then mk (cells s ∖ {[c]}) (count s)
  else s.

End Sentence.

(** ** Results of operations that can raise or run out of fuel *)

Inductive result (A : Type) : Type :=
  | Ok (a : A)
  | ValueError
  | OutOfFuel.
Arguments Ok {A} a.
Arguments ValueError {A}.
Arguments OutOfFuel {A}.

Definition bind {A B : Type} (r : result A) (k : A → result B) : result B :=
  match r with
  | Ok a => k a
  | ValueError => ValueError
  | OutOfFuel => OutOfFuel
  end.

Notation "'let!' x ':=' r 'in' k" := (bind r (λ x, k))
  (at level 10, x name, r at level 100, k at level 200, only parsing).

(** ** class MinesweeperAI *)

Module AI.

(** The engine object together with the store of [Sentence] objects that its
    [knowledge] list refers to.  [random] is the attribute [self.random],
    absent until [make_random_move] creates it. *)
Record t := mk {
  height : Z;
  width : Z;
  moves_made : gset cell;
  mines : gset cell;
  safes : gset cell;
  knowledge : list nat;
  random : option (gset cell);
  store : list Sentence.t
}.

(** [MinesweeperAI(height, width)] *)
Definition init (h w : Z) : t := mk h w ∅ ∅ ∅ [] None [].

Definition set_moves_made (st : t) (x : gset cell) : t :=
  mk (height st) (width st) x (mines st) (safes st) (knowledge st) (random st) (store st).
Definition set_mines (st : t) (x : gset cell) : t :=
  mk (height st) (width st) (moves_made st) x (safes st) (knowledge st) (random st) (store st).
Definition set_safes (st : t) (x : gset cell) : t :=
  mk (height st) (width st) (moves_made st) (mines st) x (knowledge st) (random st) (store st).
Definition set_knowledge (st : t) (x : list nat) : t :=
  mk (height st) (width st) (moves_made st) (mines st) (safes st) x (random st) (store st).
Definition set_random (st : t) (x : option (gset cell)) : t :=
  mk (height st) (width st) (moves_made st) (mines st) (safes st) (knowledge st) x (store st).
Definition set_store (st : t) (x : list Sentence.t) : t :=
  mk (height st) (width st) (moves_made st) (mines st) (safes st) (knowledge st) (random st) x.

(** The object a reference points to.  Every reference held by the engine
    points into the store (see [wf]); the default is never reached then. *)
Definition deref (st : t) (r : nat) : Sentence.t :=
  default (Sentence.mk ∅ 0) (store st !! r).

(** [for sentence in self.knowledge: sentence.f(cell)]: each object of the
    list is updated in place. *)
Definition update_all (f : Sentence.t → Sentence.t) (st : t) : t :=
  set_store st (foldl (λ h r, alter f r h) (store st) (knowledge st)).

Definition mark_mine (st : t) (c : cell) : t :=
  update_all (Sentence.mark_mine c) (set_mines st (mines st ∪ {[c]})).

Definition mark_safe (st : t) (c : cell) : t :=
  update_all (Sentence.mark_safe c) (set_safes st (safes st ∪ {[c]})).

(** *** add_knowledge, steps 1 to 3: the observation becomes a sentence *)

Definition scan_step (st : t) (c : cell) (acc : gset cell * Z) (i j : Z)
  : gset cell * Z :=
  if bool_decide ((i, j) = c) then acc
  else if Minesweeper.in_bounds (height st) (width st) i j
       then if bool_decide ((i, j) ∉ moves_made st) && bool_decide ((i, j) ∉ safes st)
            then if bool_decide ((i, j) ∈ mines st)
                 then (acc.1, (acc.2 - 1)%Z)
                 else (acc.1 ∪ {[(i, j)]}, acc.2)
            else acc
       else acc.

(** The double loop over the neighbourhood: the pair is [(near_by, count)]. *)
Definition scan (st : t) (c : cell) (count : Z) : gset cell * Z :=
  foldl (λ acc i, foldl (λ acc j, scan_step st c acc i j) acc (Minesweeper.around c.2))
        (∅, count) (Minesweeper.around c.1).

(** Allocation of a new [Sentence] object; the result is its reference. *)
Definition alloc (st : t) (s : Sentence.t) : t * nat :=
  (set_store st (store st ++ [s]), length (store st)).

(** [self.knowledge.append(r)] *)
Definition append (st : t) (r : nat) : t :=
  set_knowledge st (knowledge st ++ [r]).

Definition ingest (st : t) (c : cell) (count : Z) : t :=
  let st1 := set_moves_made st (moves_made st ∪ {[c]}) in
  let st2 := mark_safe st1 c in
  let nc := scan st2 c count in
  let sr := alloc st2 (Sentence.init nc.1 nc.2) in
  append sr.1 sr.2.

(** *** list operations on [self.knowledge] *)

(** Python compares list elements by identity first, then by [__eq__]. *)
Definition same (st : t) (r r' : nat) : bool :=
  bool_decide (r = r') || Sentence.eqb (deref st r) (deref st r').

(** [l.remove(x)]: drops the first element that is [x] or equals it. *)
Fixpoint list_remove (st : t) (x : nat) (l : list nat) : option (list nat) :=
  match l with
  | [] => None
  | r :: l' => if same st r x then Some l'
               else cons r <$> list_remove st x l'
  end.

Definition remove (st : t) (x : nat) : result t :=
  match list_remove st x (knowledge st) with
  | Some l => Ok (set_knowledge st l)
  | None => ValueError
  end.

(** [l1 == l2] on lists of sentences. *)
Fixpoint list_eqb (st : t) (l1 l2 : list nat) : bool :=
  match l1, l2 with
  | [], [] => true
  | r1 :: l1', r2 :: l2' => same st r1 r2 && list_eqb st l1' l2'
  | _, _ => false
  end.

(** *** add_knowledge, step 4: conclusions of single sentences *)

(** [if q: for cell in q.copy(): mark(cell)], where [q] is the value of a
    query; a query is called twice in the source, with nothing in between. *)
Definition mark_each (mark : t → cell → t) (st : t) (q : option (gset cell)) : t :=
  match q with
  | Some X => if bool_decide (X ≠ ∅) then foldl mark st (elements X) else st
  | None => st
  end.

(** The body of [for sentence in self.knowledge] at the object [r]. *)
Definition conclude (st : t) (r : nat) : t :=
  let st1 := mark_each mark_safe st (Sentence.known_safes (deref st r)) in
  mark_each mark_mine st1 (Sentence.known_mines (deref st1 r)).

(** Marking never changes the list itself, so the loop visits the
    references the list holds when it starts. *)
Definition mark_additional (st : t) : t :=
  foldl conclude st (knowledge st).

(** *** add_knowledge, step 5: subset inference

    Both loops run over the list while the body appends to it and removes
    from it: the iterator keeps an index into the live list and stops when
    the index reaches the current length. *)

Definition infer_body (st : t) (r1 r2 : nat) : result t :=
  let s1 := deref st r1 in
  let s2 := deref st r2 in
  if Sentence.eqb s1 s2
     || bool_decide (size (Sentence.cells s1) = 0)
     || bool_decide (size (Sentence.cells s2) = 0)
  then Ok st
  else if bool_decide (Sentence.cells s1 ⊆ Sentence.cells s2)
          && bool_decide (size (Sentence.cells s1) ≠ size (Sentence.cells s2))
       then
         let sr := alloc st (Sentence.init (Sentence.cells s2 ∖ Sentence.cells s1)
                                           (Sentence.count s2 - Sentence.count s1)) in
         remove (append sr.1 sr.2) r2
       else Ok st.

Fixpoint infer_inner (fuel : nat) (r1 : nat) (j : nat) (st : t) : result t :=
  match fuel with
  | O => OutOfFuel
  | S fuel' =>
      match knowledge st !! j with
      | None => Ok st
      | Some r2 => let! st' := infer_body st r1 r2 in infer_inner fuel' r1 (S j) st'
      end
  end.

Fixpoint infer_outer (budget fuel : nat) (i : nat) (st : t) : result t :=
  match fuel with
  | O => OutOfFuel
  | S fuel' =>
      match knowledge st !! i with
      | None => Ok st
      | Some r1 => let! st' := infer_inner budget r1 0 st in infer_outer budget fuel' (S i) st'
      end
  end.

Definition infer (budget : nat) (st : t) : result t :=
  if bool_decide (2 ≤ length (knowledge st))
  then infer_outer budget budget 0 st
  else Ok st.

(** *** add_knowledge, the end of a pass: empty sentences are removed *)

(** [for sentence in self.knowledge.copy()]: the copy is the list [l]. *)
Fixpoint drop_empty (l : list nat) (st : t) : result t :=
  match l with
  | [] => Ok st
  | r :: l' =>
      if bool_decide (size (Sentence.cells (deref st r)) = 0)
      then let! st' := remove st r in drop_empty l' st'
      else drop_empty l' st
  end.

(** *** One pass of the [while True] loop

    [test] is the list of references taken at the start of the pass; the
    comparison at the end reads the objects as they are then. *)
Definition pass (budget : nat) (st : t) : result (t * bool) :=
  let test := knowledge st in
  let st1 := mark_additional st in
  let! st2 := infer budget st1 in
  let! st3 := drop_empty (knowledge st2) st2 in
  Ok (st3, list_eqb st3 (knowledge st3) test).

Fixpoint propagate (budget fuel : nat) (st : t) : result t :=
  match fuel with
  | O => OutOfFuel
  | S fuel' =>
      match pass budget st with
      | Ok (st', true) => Ok st'
      | Ok (st', false) => propagate budget fuel' st'
      | ValueError => ValueError
      | OutOfFuel => OutOfFuel
      end
  end.

Definition add_knowledge (fuel : nat) (st : t) (c : cell) (count : Z) : result t :=
  propagate fuel fuel (ingest st c count).

(** *** Move selection *)

(** The result is the returned value ([None] is Python's [None]) and the
    engine after the call. *)
Definition make_safe_move (st : t) : option cell * t :=
  if bool_decide (safes st ≠ ∅)
  then (List.find (λ c, bool_decide (c ∉ moves_made st)) (elements (safes st)), st)
  else (None, st).

(** The body of the double loop that fills [self.random]. *)
Definition candidate_step (st : t) (acc : gset cell) (i j : Z) : gset cell :=
  if bool_decide ((i, j) ∉ moves_made st) && bool_decide ((i, j) ∉ mines st)
  then acc ∪ {[(i, j)]}
  else acc.

Definition candidates (st : t) : gset cell :=
  foldl (λ acc i, foldl (λ acc j, candidate_step st acc i j) acc (seqZ 0 (width st)))
        ∅ (seqZ 0 (height st)).

(** [random.choice(seq)] is [seq[k]] for a drawn index [k] below [len(seq)];
    the draw is the argument [rnd], reduced into that range. *)
Definition make_random_move (rnd : nat) (st : t) : option cell * t :=
  let cand := candidates st in
  let st' := set_random st (Some cand) in
  if bool_decide (cand ≠ ∅)
  then (elements cand !! (rnd `mod` length (elements cand)), st')
  else (None, st').

End AI.

(** * The vocabulary of the properties *)

(** Every reference of the knowledge list points into the store. *)
Definition wf (st : AI.t) : Prop :=
  Forall (λ r, r < length (AI.store st)) (AI.knowledge st).

(** The knowledge list read by value. *)
Definition vals (st : AI.t) : list Sentence.t :=
  AI.deref st <$> AI.knowledge st.

Definition cells_at (st : AI.t) (r : nat) : gset cell :=
  Sentence.cells (AI.deref st r).

Definition count_at (st : AI.t) (r : nat) : Z :=
  Sentence.count (AI.deref st r).

(** The sentence built from the pair [(r1, r2)] and the engine after it has
    been allocated and appended. *)
Definition derived (st : AI.t) (r1 r2 : nat) : Sentence.t :=
  Sentence.init (cells_at st r2 ∖ cells_at st r1) (count_at st r2 - count_at st r1).

Definition nonempty_at (st : AI.t) (r : nat) : Prop := size (cells_at st r) ≠ 0.

#[local] Instance nonempty_at_dec st r : Decision (nonempty_at st r).
Proof. unfold nonempty_at. apply _. Defined.

(** The number of cells in all sentences plus the number of sentences. *)
Definition weight (st : AI.t) : nat :=
  sum_list_with (λ r, size (cells_at st r)) (AI.knowledge st) + length (AI.knowledge st).

(** A step either leaves the engine as it is or lowers the measure. *)
Definition progress (st st' : AI.t) : Prop := st' = st ∨ weight st' < weight st.

(** The engines that the public operations produce from a new one. *)
Inductive reachable : AI.t → Prop :=
  | reach_init h w : reachable (AI.init h w)
  | reach_mark_mine st c : reachable st → reachable (AI.mark_mine st c)
  | reach_mark_safe st c : reachable st → reachable (AI.mark_safe st c)
  | reach_add_knowledge st c n fuel st' :
      reachable st → AI.add_knowledge fuel st c n = Ok st' → reachable st'
  | reach_safe_move st : reachable st → reachable (AI.make_safe_move st).2
  | reach_random_move rnd st : reachable st → reachable (AI.make_random_move rnd st).2.

(** The cells visited by [for i in I: for j in J], in that order. *)
Definition grid (I J : list Z) : list cell := I ≫= λ i, (λ j, (i, j)) <$> J.

(** The cells the double loop of [add_knowledge] and [nearby_mines] visits. *)
Definition block (c : cell) : list cell :=
  grid (Minesweeper.around c.1) (Minesweeper.around c.2).

Definition inside (h w : Z) (p : cell) : Prop :=
  (0 ≤ p.1 < h)%Z ∧ (0 ≤ p.2 < w)%Z.

#[local] Instance inside_dec h w p : Decision (inside h w p).
Proof. unfold inside. apply _. Defined.

(** The neighbours of a cell as the specification words them: one row and
    one column around the cell, the cell itself and the positions outside
    the board excluded. *)
Definition neighbours_spec (h w : Z) (c : cell) : gset cell :=
  list_to_set (filter (λ p, p ≠ c ∧ inside h w p) (block c)).

(** The neighbours that the scan skips, counts as known mines, or collects. *)
Definition skipped (st : AI.t) (c p : cell) : Prop :=
  p = c ∨ ¬ inside (AI.height st) (AI.width st) p
  ∨ p ∈ AI.moves_made st ∨ p ∈ AI.safes st.

Definition counted (st : AI.t) (c p : cell) : Prop :=
  ¬ skipped st c p ∧ p ∈ AI.mines st.

Definition collected (st : AI.t) (c p : cell) : Prop :=
  ¬ skipped st c p ∧ p ∉ AI.mines st.

#[local] Instance skipped_dec st c p : Decision (skipped st c p).
Proof. unfold skipped. apply _. Defined.
#[local] Instance counted_dec st c p : Decision (counted st c p).
Proof. unfold counted. apply _. Defined.
#[local] Instance collected_dec st c p : Decision (collected st c p).
Proof. unfold collected. apply _. Defined.

(** The sentence is true on the board whose mines are [M]. *)
Definition true_in (M : gset cell) (s : Sentence.t) : Prop :=
  Z.of_nat (size (Sentence.cells s ∩ M)) = Sentence.count s.

(** The engine for the game [g] knows nothing false about it. *)
Record sound (g : Minesweeper.t) (st : AI.t) : Prop := mk_sound {
  sound_height : AI.height st = Minesweeper.height g;
  sound_width : AI.width st = Minesweeper.width g;
  sound_mines : AI.mines st ⊆ Minesweeper.mines g;
  sound_safes : AI.safes st ## Minesweeper.mines g;
  sound_moves : AI.moves_made st ## Minesweeper.mines g;
  sound_knowledge :
    ∀ r, r ∈ AI.knowledge st → true_in (Minesweeper.mines g) (AI.deref st r)
}.

(** The engines a driver produces that reveals cells of the game [g] which
    are not mines and reports the board's count for each. *)
Inductive truthful_run (g : Minesweeper.t) : AI.t → Prop :=
  | run_init :
      truthful_run g (AI.init (Minesweeper.height g) (Minesweeper.width g))
  | run_reveal st c fuel st' :
      truthful_run g st →
      c ∉ Minesweeper.mines g →
      AI.add_knowledge fuel st c (Minesweeper.nearby_mines g c) = Ok st' →
      truthful_run g st'.

(** A game of one row and two columns with its mine at (0,1), and the engine
    after the driver has revealed (0,0). *)
Definition small_game : Minesweeper.t := Minesweeper.mk 1 2 {[ (0, 1)%Z ]}.

Definition small_engine : AI.t :=
  AI.mk 1 2 {[ (0, 0)%Z ]} {[ (0, 1)%Z ]} {[ (0, 0)%Z ]} [] None [Sentence.mk ∅ 0].

(** No cell is both safe and a mine, and the sentences mention no cell that
    is already marked. *)
Definition agree (st : AI.t) : Prop :=
  AI.safes st ## AI.mines st
  ∧ ∀ r, r ∈ AI.knowledge st → cells_at st r ## AI.safes st ∪ AI.mines st.

(** The engines produced by calls that never mark a cell the opposite way:
    [mark_mine] is not called on a cell of [safes], and [mark_safe] and
    [add_knowledge] are not called on a cell of [mines]. *)
Inductive consistent_run : AI.t → Prop :=
  | cons_init h w : consistent_run (AI.init h w)
  | cons_mark_mine st c :
      consistent_run st → c ∉ AI.safes st → consistent_run (AI.mark_mine st c)
  | cons_mark_safe st c :
      consistent_run st → c ∉ AI.mines st → consistent_run (AI.mark_safe st c)
  | cons_add_knowledge st c n fuel st' :
      consistent_run st → c ∉ AI.mines st →
      AI.add_knowledge fuel st c n = Ok st' → consistent_run st'.

Definition sentence_A : Sentence.t := Sentence.mk {[ (0, 0)%Z; (0, 1)%Z ]} 1.
Definition sentence_B : Sentence.t := Sentence.mk {[ (0, 0)%Z; (0, 1)%Z; (0, 2)%Z ]} 2.

(** The store grows by allocation only. *)
Definition extends (st st' : AI.t) : Prop := ∃ l, AI.store st' = AI.store st ++ l.

(** Some sentence of the knowledge has no cells. *)
Definition has_empty (st : AI.t) : Prop :=
  ∃ r, r ∈ AI.knowledge st ∧ cells_at st r = ∅.

(** * Properties of sentences *)

Lemma foldl_add (l : list cell) (A : gset cell) :
  foldl (λ acc c, acc ∪ {[c]}) A l = A ∪ list_to_set l.
Proof.
  revert A. induction l as [|c l IH]; intros A; simpl.
  - set_solver.
  - rewrite IH. set_solver.
Qed.

Lemma collect_id (X : gset cell) : Sentence.collect X = X.
Proof.
  unfold Sentence.collect. rewrite foldl_add, list_to_set_elements_L. set_solver.
Qed.

Lemma eqb_true (s o : Sentence.t) : Sentence.eqb s o = true ↔ s = o.
Proof.
  unfold Sentence.eqb. rewrite andb_true_iff, !bool_decide_eq_true.
  destruct s, o; simpl. split.
  - intros [-> ->]. reflexivity.
  - intros [= -> ->]. done.
Qed.

Lemma eqb_refl (s : Sentence.t) : Sentence.eqb s s = true.
Proof. by apply eqb_true. Qed.

Lemma mark_safe_cells c s :
  Sentence.cells (Sentence.mark_safe c s) = Sentence.cells s ∖ {[c]}.
Proof. unfold Sentence.mark_safe. case_bool_decide; simpl; set_solver. Qed.

Lemma mark_mine_cells c s :
  Sentence.cells (Sentence.mark_mine c s) = Sentence.cells s ∖ {[c]}.
Proof. unfold Sentence.mark_mine. case_bool_decide; simpl; set_solver. Qed.

Lemma mark_safe_count c s :
  Sentence.count (Sentence.mark_safe c s) = Sentence.count s.
Proof. unfold Sentence.mark_safe. by case_bool_decide. Qed.

Lemma mark_mine_count c s :
  Sentence.count (Sentence.mark_mine c s)
  = (Sentence.count s - if bool_decide (c ∈ Sentence.cells s) then 1 else 0)%Z.
Proof. unfold Sentence.mark_mine. case_bool_decide; simpl; lia. Qed.

Lemma mark_safe_idem c s :
  Sentence.mark_safe c (Sentence.mark_safe c s) = Sentence.mark_safe c s.
Proof.
  unfold Sentence.mark_safe at 1. rewrite bool_decide_eq_false_2; [done|].
  rewrite mark_safe_cells. set_solver.
Qed.

Lemma mark_mine_idem c s :
  Sentence.mark_mine c (Sentence.mark_mine c s) = Sentence.mark_mine c s.
Proof.
  unfold Sentence.mark_mine at 1. rewrite bool_decide_eq_false_2; [done|].
  rewrite mark_mine_cells. set_solver.
Qed.

Lemma mark_safe_absent c s : c ∉ Sentence.cells s → Sentence.mark_safe c s = s.
Proof. intros H. unfold Sentence.mark_safe. by rewrite bool_decide_eq_false_2. Qed.

Lemma mark_mine_absent c s : c ∉ Sentence.cells s → Sentence.mark_mine c s = s.
Proof. intros H. unfold Sentence.mark_mine. by rewrite bool_decide_eq_false_2. Qed.

(** * The store under in-place updates *)

Lemma alter_all_length (f : Sentence.t → Sentence.t) l (h : list Sentence.t) :
  length (foldl (λ h r, alter f r h) h l) = length h.
Proof.
  revert h. induction l as [|r l IH]; intros h; simpl; [done|].
  by rewrite IH, length_alter.
Qed.

Lemma alter_all_lookup (f : Sentence.t → Sentence.t) l (h : list Sentence.t) a :
  (∀ x, f (f x) = f x) →
  foldl (λ h r, alter f r h) h l !! a
  = if bool_decide (a ∈ l) then f <$> h !! a else h !! a.
Proof.
  intros Hf. revert h. induction l as [|r l IH]; intros h; simpl; [done|].
  rewrite IH. destruct (decide (r = a)) as [->|Hne].
  - rewrite list_lookup_alter_eq. rewrite (bool_decide_eq_true_2 (a ∈ a :: l)) by set_solver.
    case_bool_decide; [|done]. destruct (h !! a); simpl; [|done]. by rewrite Hf.
  - rewrite list_lookup_alter_ne by done.
    case_bool_decide as H1; case_bool_decide as H2; try done; set_solver.
Qed.

Lemma deref_update_all f st r :
  (∀ x, f (f x) = f x) →
  f (Sentence.mk ∅ 0) = Sentence.mk ∅ 0 →
  r ∈ AI.knowledge st →
  AI.deref (AI.update_all f st) r = f (AI.deref st r).
Proof.
  intros Hf Hd Hr. unfold AI.deref, AI.update_all. simpl.
  rewrite alter_all_lookup by done. rewrite bool_decide_eq_true_2 by done.
  destruct (AI.store st !! r); simpl; congruence.
Qed.

Lemma deref_update_all_other f st r :
  (∀ x, f (f x) = f x) →
  r ∉ AI.knowledge st →
  AI.deref (AI.update_all f st) r = AI.deref st r.
Proof.
  intros Hf Hr. unfold AI.deref, AI.update_all. simpl.
  rewrite alter_all_lookup by done. by rewrite bool_decide_eq_false_2.
Qed.

Lemma deref_mark_safe st c r :
  r ∈ AI.knowledge st →
  AI.deref (AI.mark_safe st c) r = Sentence.mark_safe c (AI.deref st r).
Proof.
  intros Hr. unfold AI.mark_safe. rewrite deref_update_all; try done.
  apply mark_safe_idem.
Qed.

Lemma deref_mark_mine st c r :
  r ∈ AI.knowledge st →
  AI.deref (AI.mark_mine st c) r = Sentence.mark_mine c (AI.deref st r).
Proof.
  intros Hr. unfold AI.mark_mine. rewrite deref_update_all; try done.
  apply mark_mine_idem.
Qed.

Lemma store_length_mark_safe st c :
  length (AI.store (AI.mark_safe st c)) = length (AI.store st).
Proof. unfold AI.mark_safe, AI.update_all. simpl. apply alter_all_length. Qed.

Lemma store_length_mark_mine st c :
  length (AI.store (AI.mark_mine st c)) = length (AI.store st).
Proof. unfold AI.mark_mine, AI.update_all. simpl. apply alter_all_length. Qed.

Lemma wf_mark_safe st c : wf st → wf (AI.mark_safe st c).
Proof. unfold wf. by rewrite store_length_mark_safe. Qed.

Lemma wf_mark_mine st c : wf st → wf (AI.mark_mine st c).
Proof. unfold wf. by rewrite store_length_mark_mine. Qed.

Lemma cells_mark_safe st c r :
  r ∈ AI.knowledge st → cells_at (AI.mark_safe st c) r = cells_at st r ∖ {[c]}.
Proof. intros Hr. unfold cells_at. by rewrite deref_mark_safe, mark_safe_cells. Qed.

Lemma cells_mark_mine st c r :
  r ∈ AI.knowledge st → cells_at (AI.mark_mine st c) r = cells_at st r ∖ {[c]}.
Proof. intros Hr. unfold cells_at. by rewrite deref_mark_mine, mark_mine_cells. Qed.

Lemma count_mark_safe st c r :
  r ∈ AI.knowledge st → count_at (AI.mark_safe st c) r = count_at st r.
Proof. intros Hr. unfold count_at. by rewrite deref_mark_safe, mark_safe_count. Qed.

Lemma count_mark_mine st c r :
  r ∈ AI.knowledge st →
  count_at (AI.mark_mine st c) r
  = (count_at st r - if bool_decide (c ∈ cells_at st r) then 1 else 0)%Z.
Proof. intros Hr. unfold count_at, cells_at. by rewrite deref_mark_mine, mark_mine_count. Qed.

(** Allocation leaves the existing objects alone. *)
Lemma deref_alloc_old st s r :
  r < length (AI.store st) → AI.deref (AI.alloc st s).1 r = AI.deref st r.
Proof. intros Hr. unfold AI.deref. simpl. by rewrite lookup_app_l. Qed.

Lemma deref_alloc_new st s : AI.deref (AI.alloc st s).1 (AI.alloc st s).2 = s.
Proof.
  unfold AI.deref. simpl. rewrite lookup_app_r by lia.
  by rewrite Nat.sub_diag.
Qed.

Lemma deref_set_knowledge st l r : AI.deref (AI.set_knowledge st l) r = AI.deref st r.
Proof. done. Qed.

(** [list.remove] *)
Lemma list_remove_Some st x l l' :
  AI.list_remove st x l = Some l' →
  ∃ l1 r l2, l = l1 ++ r :: l2 ∧ l' = l1 ++ l2 ∧ AI.same st r x = true
             ∧ Forall (λ y, AI.same st y x = false) l1.
Proof.
  revert l'. induction l as [|a l IH]; intros l' H; simpl in H; [done|].
  destruct (AI.same st a x) eqn:Ha.
  - injection H as <-. exists [], a, l. by repeat split.
  - destruct (AI.list_remove st x l) as [k|] eqn:Hk; [|done].
    injection H as <-. destruct (IH k eq_refl) as (l1 & r & l2 & -> & -> & Hs & Hall).
    exists (a :: l1), r, l2. repeat split; try done. by constructor.
Qed.

Lemma same_refl st r : AI.same st r r = true.
Proof. unfold AI.same. by rewrite bool_decide_eq_true_2. Qed.

Lemma same_deref st r r' : AI.same st r r' = true → AI.deref st r = AI.deref st r'.
Proof.
  unfold AI.same. rewrite orb_true_iff, bool_decide_eq_true, eqb_true.
  intros [->|H]; done.
Qed.

Lemma list_remove_is_Some st x l :
  x ∈ l → is_Some (AI.list_remove st x l).
Proof.
  induction l as [|a l IH]; intros Hx; [set_solver|]. simpl.
  destruct (AI.same st a x) eqn:Ha; [by eexists|].
  destruct IH as [k Hk].
  - apply elem_of_cons in Hx as [->|Hx]; [|done]. by rewrite same_refl in Ha.
  - rewrite Hk. by eexists.
Qed.

(** * Subset inference, one pair at a time *)

Lemma app_snoc_split {A} (l1 l2 K : list A) (r n : A) :
  l1 ++ r :: l2 = K ++ [n] →
  (l2 = [] ∧ l1 = K ∧ r = n) ∨ (∃ l2', l2 = l2' ++ [n] ∧ K = l1 ++ r :: l2').
Proof.
  destruct l2 as [|x l2 _] using rev_ind; intros H.
  - left. apply app_inj_tail in H as [-> ->]. done.
  - right. exists l2. rewrite app_comm_cons, app_assoc in H.
    apply app_inj_tail in H as [<- <-]. done.
Qed.

Lemma infer_body_spec st r1 r2 st' :
  wf st → r1 ∈ AI.knowledge st → r2 ∈ AI.knowledge st →
  AI.infer_body st r1 r2 = Ok st' →
  st' = st ∨
  (cells_at st r1 ≠ ∅ ∧ cells_at st r1 ⊆ cells_at st r2
   ∧ size (cells_at st r1) ≠ size (cells_at st r2)
   ∧ ∃ l1 r l2,
       AI.knowledge st = l1 ++ r :: l2
       ∧ AI.deref st r = AI.deref st r2
       ∧ r ≠ r1
       ∧ st' = AI.mk (AI.height st) (AI.width st) (AI.moves_made st) (AI.mines st)
                     (AI.safes st) (l1 ++ l2 ++ [length (AI.store st)]) (AI.random st)
                     (AI.store st ++ [derived st r1 r2])).
Proof.
  intros Hwf H1 H2. unfold AI.infer_body.
  destruct (_ || _ || _) eqn:Hskip; [intros [= <-]; by left|].
  apply orb_false_iff in Hskip as [Hskip He2].
  apply orb_false_iff in Hskip as [Heq He1].
  apply bool_decide_eq_false in He1, He2.
  destruct (_ && _) eqn:Hsub; [|intros [= <-]; by left].
  apply andb_true_iff in Hsub as [Hsub Hsz].
  apply bool_decide_eq_true in Hsub, Hsz.
  unfold AI.remove.
  destruct (AI.list_remove _ _ _) as [l'|] eqn:Hrem; [|done].
  intros [= <-]. right.
  assert (Hlt : ∀ x, x ∈ AI.knowledge st → x < length (AI.store st)).
  { intros x Hx. unfold wf in Hwf. rewrite Forall_forall in Hwf. by apply Hwf. }
  set (snew := Sentence.init _ _) in *.
  assert (Hold : ∀ x, x ∈ AI.knowledge st →
                      AI.deref (AI.append (AI.alloc st snew).1 (AI.alloc st snew).2) x
                      = AI.deref st x).
  { intros x Hx. unfold AI.append. rewrite deref_set_knowledge.
    apply deref_alloc_old. by apply Hlt. }
  apply list_remove_Some in Hrem as (l1 & r & l2 & Hl & -> & Hsame & Hall).
  simpl in Hl. symmetry in Hl. apply app_snoc_split in Hl as [(-> & -> & ->)|(l2' & -> & HK)].
  { rewrite Forall_forall in Hall. specialize (Hall r2 H2).
    by rewrite same_refl in Hall. }
  assert (Hr : r ∈ AI.knowledge st) by (rewrite HK; set_solver).
  apply same_deref in Hsame. rewrite !Hold in Hsame by done.
  repeat split.
  - intros Hemp. apply He1. unfold cells_at in Hemp. by rewrite Hemp.
  - done.
  - done.
  - exists l1, r, l2'. repeat split; try done.
    intros ->. rewrite Hsame, eqb_refl in Heq. done.
Qed.

Lemma infer_body_keeps st r1 r2 st' :
  wf st → r1 ∈ AI.knowledge st → r2 ∈ AI.knowledge st →
  AI.infer_body st r1 r2 = Ok st' →
  wf st' ∧ r1 ∈ AI.knowledge st'
  ∧ length (AI.knowledge st') = length (AI.knowledge st).
Proof.
  intros Hwf H1 H2 H.
  destruct (infer_body_spec _ _ _ _ Hwf H1 H2 H)
    as [->|(_ & _ & _ & l1 & r & l2 & HK & _ & Hne & ->)]; [done|].
  simpl. unfold wf in *. simpl. rewrite HK in *.
  rewrite !Forall_app, Forall_cons in Hwf. destruct Hwf as (Hw1 & Hwr & Hw2).
  repeat split.
  - assert (Hlen : length (AI.store st ++ [derived st r1 r2]) = S (length (AI.store st)))
      by (rewrite length_app; simpl; lia).
    rewrite !Forall_app, Forall_singleton.
    repeat split; [| |rewrite Hlen; lia];
      (eapply Forall_impl; [eassumption|]; simpl; intros; rewrite Hlen; lia).
  - set_solver.
  - rewrite !length_app. simpl. lia.
Qed.

Lemma infer_body_total st r1 r2 :
  r2 ∈ AI.knowledge st → ∃ st', AI.infer_body st r1 r2 = Ok st'.
Proof.
  intros H2. unfold AI.infer_body.
  destruct (_ || _ || _); [by eexists|].
  destruct (_ && _); [|by eexists].
  unfold AI.remove.
  destruct (list_remove_is_Some
              (AI.append (AI.alloc st (Sentence.init
                 (Sentence.cells (AI.deref st r2) ∖ Sentence.cells (AI.deref st r1))
                 (Sentence.count (AI.deref st r2) - Sentence.count (AI.deref st r1)))).1
                 (length (AI.store st)))
              r2 (AI.knowledge st ++ [length (AI.store st)])) as [l Hl].
  { set_solver. }
  simpl in *. rewrite Hl. by eexists.
Qed.

(** * The queries and the marking loops *)

Lemma known_safes_Some s X :
  Sentence.known_safes s = Some X →
  Sentence.count s = 0%Z ∧ Sentence.cells s ≠ ∅ ∧ X = Sentence.cells s.
Proof.
  unfold Sentence.known_safes. destruct (_ && _) eqn:H; [|done].
  apply andb_true_iff in H as [H1 H2]. apply bool_decide_eq_true in H1, H2.
  intros [= <-]. by rewrite collect_id.
Qed.

Lemma known_mines_Some s X :
  Sentence.known_mines s = Some X →
  Sentence.count s = Z.of_nat (size (Sentence.cells s)) ∧ Sentence.cells s ≠ ∅
  ∧ X = Sentence.cells s.
Proof.
  unfold Sentence.known_mines. destruct (_ && _) eqn:H; [|done].
  apply andb_true_iff in H as [H1 H2]. apply bool_decide_eq_true in H1, H2.
  intros [= <-]. by rewrite collect_id.
Qed.

Lemma knowledge_mark_safes L st :
  AI.knowledge (foldl AI.mark_safe st L) = AI.knowledge st.
Proof. revert st. induction L as [|c L IH]; intros st; simpl; [done|]. by rewrite IH. Qed.

Lemma knowledge_mark_mines L st :
  AI.knowledge (foldl AI.mark_mine st L) = AI.knowledge st.
Proof. revert st. induction L as [|c L IH]; intros st; simpl; [done|]. by rewrite IH. Qed.

Lemma wf_mark_safes L st : wf st → wf (foldl AI.mark_safe st L).
Proof.
  revert st. induction L as [|c L IH]; intros st H; simpl; [done|].
  by apply IH, wf_mark_safe.
Qed.

Lemma wf_mark_mines L st : wf st → wf (foldl AI.mark_mine st L).
Proof.
  revert st. induction L as [|c L IH]; intros st H; simpl; [done|].
  by apply IH, wf_mark_mine.
Qed.

Lemma cells_mark_safes L st r :
  r ∈ AI.knowledge st →
  cells_at (foldl AI.mark_safe st L) r = cells_at st r ∖ list_to_set L.
Proof.
  revert st. induction L as [|c L IH]; intros st Hr; simpl; [set_solver|].
  rewrite IH by done. rewrite cells_mark_safe by done. set_solver.
Qed.

Lemma cells_mark_mines L st r :
  r ∈ AI.knowledge st →
  cells_at (foldl AI.mark_mine st L) r = cells_at st r ∖ list_to_set L.
Proof.
  revert st. induction L as [|c L IH]; intros st Hr; simpl; [set_solver|].
  rewrite IH by done. rewrite cells_mark_mine by done. set_solver.
Qed.

Lemma knowledge_mark_each_safe st q :
  AI.knowledge (AI.mark_each AI.mark_safe st q) = AI.knowledge st.
Proof.
  destruct q as [X|]; simpl; [|done]. case_bool_decide; [|done].
  apply knowledge_mark_safes.
Qed.

Lemma knowledge_mark_each_mine st q :
  AI.knowledge (AI.mark_each AI.mark_mine st q) = AI.knowledge st.
Proof.
  destruct q as [X|]; simpl; [|done]. case_bool_decide; [|done].
  apply knowledge_mark_mines.
Qed.

Lemma knowledge_conclude st r : AI.knowledge (AI.conclude st r) = AI.knowledge st.
Proof.
  unfold AI.conclude. by rewrite knowledge_mark_each_mine, knowledge_mark_each_safe.
Qed.

Lemma wf_conclude st r : wf st → wf (AI.conclude st r).
Proof.
  intros H. unfold AI.conclude.
  assert (H1 : wf (AI.mark_each AI.mark_safe st (Sentence.known_safes (AI.deref st r)))).
  { destruct (Sentence.known_safes _); simpl; [|done].
    case_bool_decide; [|done]. by apply wf_mark_safes. }
  destruct (Sentence.known_mines _); simpl; [|done].
  case_bool_decide; [|done]. by apply wf_mark_mines.
Qed.

Lemma knowledge_concludes l st : AI.knowledge (foldl AI.conclude st l) = AI.knowledge st.
Proof.
  revert st. induction l as [|r l IH]; intros st; simpl; [done|].
  by rewrite IH, knowledge_conclude.
Qed.

Lemma wf_concludes l st : wf st → wf (foldl AI.conclude st l).
Proof.
  revert st. induction l as [|r l IH]; intros st H; simpl; [done|].
  by apply IH, wf_conclude.
Qed.

(** * Removal of the empty sentences: the loop is a filter *)

Lemma list_remove_first st x P l :
  Forall (λ y, AI.same st y x = false) P →
  AI.list_remove st x (P ++ x :: l) = Some (P ++ l).
Proof.
  induction P as [|y P IH]; intros H; simpl.
  - by rewrite same_refl.
  - apply Forall_cons in H as [Hy HP]. rewrite Hy, IH by done. done.
Qed.

Lemma drop_empty_filter P l st :
  AI.knowledge st = P ++ l →
  Forall (nonempty_at st) P →
  AI.drop_empty l st = Ok (AI.set_knowledge st (P ++ filter (nonempty_at st) l)).
Proof.
  revert P st. induction l as [|r l IH]; intros P st HK HP; simpl.
  - rewrite app_nil_r in *. rewrite <- HK. by destruct st.
  - case_bool_decide as Hr.
    + unfold AI.remove. rewrite HK, list_remove_first.
      * simpl. rewrite (IH P); [|done|done].
        rewrite filter_cons_False by (unfold nonempty_at, cells_at; lia). done.
      * eapply Forall_impl; [exact HP|]. intros y Hy. unfold nonempty_at, cells_at in Hy.
        destruct (AI.same st y r) eqn:Hs; [|done].
        apply same_deref in Hs. rewrite Hs in Hy. done.
    + rewrite filter_cons_True by done.
      rewrite (IH (P ++ [r])).
      * by rewrite <- app_assoc.
      * by rewrite <- app_assoc.
      * apply Forall_app. split; [done|]. by apply Forall_singleton.
Qed.

Lemma drop_empty_spec st :
  AI.drop_empty (AI.knowledge st) st
  = Ok (AI.set_knowledge st (filter (nonempty_at st) (AI.knowledge st))).
Proof. by rewrite (drop_empty_filter []). Qed.

Lemma infer_inner_S fuel r1 j st :
  AI.infer_inner (S fuel) r1 j st
  = match AI.knowledge st !! j with
    | None => Ok st
    | Some r2 => bind (AI.infer_body st r1 r2) (AI.infer_inner fuel r1 (S j))
    end.
Proof. done. Qed.

Lemma infer_outer_S budget fuel i st :
  AI.infer_outer budget (S fuel) i st
  = match AI.knowledge st !! i with
    | None => Ok st
    | Some r1 => bind (AI.infer_inner budget r1 0 st) (AI.infer_outer budget fuel (S i))
    end.
Proof. done. Qed.

Lemma propagate_S budget fuel st :
  AI.propagate budget (S fuel) st
  = match AI.pass budget st with
    | Ok (st', true) => Ok st'
    | Ok (st', false) => AI.propagate budget fuel st'
    | ValueError => ValueError
    | OutOfFuel => OutOfFuel
    end.
Proof. done. Qed.

(** * A proof rule for the propagation pass

    A relation between the engine before and after, which is reflexive and
    transitive and holds of every elementary step of a pass (under the
    conditions in which the pass takes that step), holds of the pass. *)

Section rules.
Variable R : AI.t → AI.t → Prop.
Hypothesis R_refl : ∀ st, R st st.
Hypothesis R_trans : ∀ a b c, R a b → R b c → R a c.
Hypothesis R_safe : ∀ st r c,
  wf st → r ∈ AI.knowledge st → count_at st r = 0%Z → c ∈ cells_at st r →
  R st (AI.mark_safe st c).
Hypothesis R_mine : ∀ st r c,
  wf st → r ∈ AI.knowledge st →
  count_at st r = Z.of_nat (size (cells_at st r)) → c ∈ cells_at st r →
  R st (AI.mark_mine st c).
Hypothesis R_infer : ∀ st r1 r2 st',
  wf st → r1 ∈ AI.knowledge st → r2 ∈ AI.knowledge st →
  AI.infer_body st r1 r2 = Ok st' → R st st'.
Hypothesis R_drop : ∀ st,
  wf st → R st (AI.set_knowledge st (filter (nonempty_at st) (AI.knowledge st))).

Lemma mark_safes_rule L st r :
  wf st → r ∈ AI.knowledge st → count_at st r = 0%Z →
  NoDup L → (∀ c, c ∈ L → c ∈ cells_at st r) →
  R st (foldl AI.mark_safe st L).
Proof.
  clear R_mine R_infer R_drop.
  revert st. induction L as [|c L IH]; intros st Hwf Hr Hc Hnd HL; simpl; [done|].
  apply NoDup_cons in Hnd as [HcL Hnd].
  eapply R_trans; [apply (R_safe st r c); try done; apply HL; set_solver|].
  apply (IH _ (wf_mark_safe _ _ Hwf)); try done.
  - by rewrite count_mark_safe.
  - intros c' Hc'. rewrite cells_mark_safe by done.
    apply elem_of_difference. split; [apply HL; set_solver|]. set_solver.
Qed.

Lemma mark_mines_rule L st r :
  wf st → r ∈ AI.knowledge st →
  count_at st r = Z.of_nat (size (cells_at st r)) →
  NoDup L → (∀ c, c ∈ L → c ∈ cells_at st r) →
  R st (foldl AI.mark_mine st L).
Proof.
  clear R_safe R_infer R_drop.
  revert st. induction L as [|c L IH]; intros st Hwf Hr Hc Hnd HL; simpl; [done|].
  apply NoDup_cons in Hnd as [HcL Hnd].
  assert (Hin : c ∈ cells_at st r) by (apply HL; set_solver).
  eapply R_trans; [by apply (R_mine st r c)|].
  apply (IH _ (wf_mark_mine _ _ Hwf)); try done.
  - rewrite count_mark_mine, cells_mark_mine by done.
    rewrite bool_decide_eq_true_2 by done.
    rewrite size_difference by set_solver. rewrite size_singleton.
    assert (size (cells_at st r) ≠ 0) by (apply size_non_empty_iff; set_solver).
    lia.
  - intros c' Hc'. rewrite cells_mark_mine by done.
    apply elem_of_difference. split; [apply HL; set_solver|]. set_solver.
Qed.

Lemma conclude_rule st r :
  wf st → r ∈ AI.knowledge st → R st (AI.conclude st r).
Proof.
  clear R_infer R_drop.
  intros Hwf Hr. unfold AI.conclude.
  set (st1 := AI.mark_each AI.mark_safe st _).
  assert (H1 : R st st1 ∧ wf st1 ∧ AI.knowledge st1 = AI.knowledge st).
  { subst st1. destruct (Sentence.known_safes _) as [X|] eqn:HX; simpl; [|done].
    case_bool_decide; [|done].
    apply known_safes_Some in HX as (Hc & _ & ->).
    split_and!; [|by apply wf_mark_safes|apply knowledge_mark_safes].
    apply (mark_safes_rule _ _ r); try done.
    - apply NoDup_elements.
    - intros c. by rewrite elem_of_elements. }
  destruct H1 as (HR1 & Hwf1 & HK1).
  eapply R_trans; [exact HR1|].
  destruct (Sentence.known_mines _) as [X|] eqn:HX; simpl; [|done].
  case_bool_decide; [|done].
  apply known_mines_Some in HX as (Hc & _ & ->).
  apply (mark_mines_rule _ _ r); try done.
  - by rewrite HK1.
  - apply NoDup_elements.
  - intros c. by rewrite elem_of_elements.
Qed.

Lemma concludes_rule l st :
  wf st → l ⊆ AI.knowledge st → R st (foldl AI.conclude st l).
Proof.
  clear R_infer R_drop.
  revert st. induction l as [|r l IH]; intros st Hwf Hl; simpl; [done|].
  eapply R_trans; [apply (conclude_rule st r); [done|apply Hl; set_solver]|].
  apply IH; [by apply wf_conclude|]. rewrite knowledge_conclude.
  intros x Hx. apply Hl. set_solver.
Qed.

Lemma mark_additional_rule st : wf st → R st (AI.mark_additional st).
Proof.
  clear R_infer R_drop. intros Hwf. by apply concludes_rule. Qed.

Lemma infer_inner_rule fuel r1 j st st' :
  wf st → r1 ∈ AI.knowledge st →
  AI.infer_inner fuel r1 j st = Ok st' →
  R st st' ∧ wf st'.
Proof.
  revert j st. induction fuel as [|fuel IH]; intros j st Hwf H1 H; [done|].
  rewrite infer_inner_S in H.
  destruct (AI.knowledge st !! j) as [r2|] eqn:Hj;
    [|injection H as <-; split; [apply R_refl|exact Hwf]].
  destruct (AI.infer_body st r1 r2) as [st1| |] eqn:Hb; simpl in H; try done.
  assert (H2 : r2 ∈ AI.knowledge st) by (eapply list_elem_of_lookup_2; eauto).
  destruct (infer_body_keeps _ _ _ _ Hwf H1 H2 Hb) as (Hwf1 & H11 & _).
  destruct (IH _ _ Hwf1 H11 H) as [HR Hwf'].
  split; [|done]. eapply R_trans; [|exact HR]. by apply (R_infer st r1 r2 st1).
Qed.

Lemma infer_outer_rule budget fuel i st st' :
  wf st → AI.infer_outer budget fuel i st = Ok st' → R st st' ∧ wf st'.
Proof.
  revert i st. induction fuel as [|fuel IH]; intros i st Hwf H; [done|].
  rewrite infer_outer_S in H.
  destruct (AI.knowledge st !! i) as [r1|] eqn:Hi;
    [|injection H as <-; split; [apply R_refl|exact Hwf]].
  destruct (AI.infer_inner budget r1 0 st) as [st1| |] eqn:Hb; simpl in H; try done.
  assert (H1 : r1 ∈ AI.knowledge st) by (eapply list_elem_of_lookup_2; eauto).
  destruct (infer_inner_rule _ _ _ _ _ Hwf H1 Hb) as [HR1 Hwf1].
  destruct (IH _ _ Hwf1 H) as [HR Hwf'].
  split; [|done]. by eapply R_trans.
Qed.

Lemma infer_rule budget st st' :
  wf st → AI.infer budget st = Ok st' → R st st' ∧ wf st'.
Proof.
  intros Hwf. unfold AI.infer. case_bool_decide.
  - by apply infer_outer_rule.
  - intros [= <-]. split; [apply R_refl|exact Hwf].
Qed.

Lemma pass_rule budget st st' flag :
  wf st → AI.pass budget st = Ok (st', flag) → R st st' ∧ wf st'.
Proof.
  intros Hwf. unfold AI.pass.
  destruct (AI.infer budget (AI.mark_additional st)) as [st2| |] eqn:H2; simpl; try done.
  rewrite drop_empty_spec. simpl. intros [= <- _].
  pose proof (wf_concludes (AI.knowledge st) st Hwf) as Hwf1.
  destruct (infer_rule _ _ _ Hwf1 H2) as [HR2 Hwf2].
  split.
  - eapply R_trans; [by apply mark_additional_rule|].
    eapply R_trans; [exact HR2|]. by apply R_drop.
  - unfold wf in *. simpl. rewrite Forall_forall in *.
    intros x Hx. apply list_elem_of_filter in Hx as [_ Hx]. by apply Hwf2.
Qed.

Lemma propagate_rule budget fuel st st' :
  wf st → AI.propagate budget fuel st = Ok st' → R st st' ∧ wf st'.
Proof.
  revert st. induction fuel as [|fuel IH]; intros st Hwf H; [done|].
  rewrite propagate_S in H.
  destruct (AI.pass budget st) as [[st1 []]| |] eqn:Hp; try done.
  - injection H as <-. by eapply pass_rule.
  - destruct (pass_rule _ _ _ _ Hwf Hp) as [HR1 Hwf1].
    destruct (IH _ Hwf1 H) as [HR Hwf'].
    split; [|done]. by eapply R_trans.
Qed.
End rules.

(** * The loops of a pass run to their end *)

Lemma infer_inner_total fuel r1 j st :
  wf st → r1 ∈ AI.knowledge st →
  j ≤ length (AI.knowledge st) → length (AI.knowledge st) < fuel + j →
  ∃ st', AI.infer_inner fuel r1 j st = Ok st'
         ∧ length (AI.knowledge st') = length (AI.knowledge st).
Proof.
  revert j st. induction fuel as [|fuel IH]; intros j st Hwf H1 Hj Hlen; [lia|].
  rewrite infer_inner_S.
  destruct (AI.knowledge st !! j) as [r2|] eqn:Hl; [|by eexists].
  assert (H2 : r2 ∈ AI.knowledge st) by (eapply list_elem_of_lookup_2; eauto).
  apply lookup_lt_Some in Hl.
  destruct (infer_body_total st r1 r2 H2) as [st1 Hb]. rewrite Hb. simpl.
  destruct (infer_body_keeps _ _ _ _ Hwf H1 H2 Hb) as (Hwf1 & H11 & Hlen1).
  destruct (IH (S j) st1) as (st' & Hst' & Hlen'); try done; try lia.
  exists st'. split; [done|lia].
Qed.

Lemma infer_outer_total budget fuel i st :
  wf st → length (AI.knowledge st) < budget →
  i ≤ length (AI.knowledge st) → length (AI.knowledge st) < fuel + i →
  ∃ st', AI.infer_outer budget fuel i st = Ok st'
         ∧ length (AI.knowledge st') = length (AI.knowledge st).
Proof.
  revert i st. induction fuel as [|fuel IH]; intros i st Hwf Hb Hi Hlen; [lia|].
  rewrite infer_outer_S.
  destruct (AI.knowledge st !! i) as [r1|] eqn:Hl; [|by eexists].
  assert (H1 : r1 ∈ AI.knowledge st) by (eapply list_elem_of_lookup_2; eauto).
  apply lookup_lt_Some in Hl.
  destruct (infer_inner_total budget r1 0 st) as (st1 & Hst1 & Hlen1); try done; try lia.
  rewrite Hst1. simpl.
  assert (Hwf1 : wf st1).
  { eapply (infer_inner_rule (λ _ _, True)); eauto. }
  destruct (IH (S i) st1) as (st' & Hst' & Hlen'); try done; try lia.
  exists st'. split; [done|lia].
Qed.

Lemma infer_total budget st :
  wf st → length (AI.knowledge st) < budget →
  ∃ st', AI.infer budget st = Ok st'
         ∧ length (AI.knowledge st') = length (AI.knowledge st).
Proof.
  intros Hwf Hb. unfold AI.infer. case_bool_decide; [|by eexists].
  apply infer_outer_total; try done; lia.
Qed.

Lemma pass_total budget st :
  wf st → length (AI.knowledge st) < budget →
  ∃ st' flag, AI.pass budget st = Ok (st', flag)
              ∧ length (AI.knowledge st') ≤ length (AI.knowledge st).
Proof.
  intros Hwf Hb. unfold AI.pass.
  destruct (infer_total budget (AI.mark_additional st)) as (st2 & H2 & Hlen2).
  - by apply wf_concludes.
  - unfold AI.mark_additional. by rewrite knowledge_concludes.
  - rewrite H2. simpl. rewrite drop_empty_spec. simpl. eexists _, _. split; [done|].
    simpl. etrans; [apply length_filter|]. rewrite Hlen2.
    unfold AI.mark_additional. by rewrite knowledge_concludes.
Qed.

(** * The measure of the propagation loop *)

Lemma sum_list_with_le {A} (f g : A → nat) l :
  (∀ x, x ∈ l → f x ≤ g x) → sum_list_with f l ≤ sum_list_with g l.
Proof.
  induction l as [|a l IH]; intros H; simpl; [done|].
  assert (f a ≤ g a) by (apply H; set_solver).
  assert (sum_list_with f l ≤ sum_list_with g l) by (apply IH; intros; apply H; set_solver).
  lia.
Qed.

Lemma sum_list_with_lt {A} (f g : A → nat) l a :
  (∀ x, x ∈ l → f x ≤ g x) → a ∈ l → f a < g a →
  sum_list_with f l < sum_list_with g l.
Proof.
  intros Hle Ha Hlt. apply list_elem_of_split in Ha as (l1 & l2 & ->).
  rewrite !sum_list_with_app. simpl.
  assert (sum_list_with f l1 ≤ sum_list_with g l1)
    by (apply sum_list_with_le; intros; apply Hle; set_solver).
  assert (sum_list_with f l2 ≤ sum_list_with g l2)
    by (apply sum_list_with_le; intros; apply Hle; set_solver).
  lia.
Qed.

Lemma sum_list_with_filter {A} (f : A → nat) (P : A → Prop) `{∀ x, Decision (P x)} l :
  sum_list_with f (filter P l) ≤ sum_list_with f l.
Proof.
  induction l as [|a l IH]; simpl; [done|].
  rewrite filter_cons. destruct (decide (P a)); simpl; lia.
Qed.

Lemma filter_all {A} (P : A → Prop) `{∀ x, Decision (P x)} l :
  Forall P l → filter P l = l.
Proof.
  induction 1 as [|a l Ha Hl IH]; [done|].
  rewrite filter_cons_True by done. by rewrite IH.
Qed.

Lemma progress_refl st : progress st st.
Proof. by left. Qed.

Lemma progress_trans a b c : progress a b → progress b c → progress a c.
Proof. unfold progress. intros [->|H1] [->|H2]; auto. right. lia. Qed.

Lemma progress_weight st st' : progress st st' → weight st' ≤ weight st.
Proof. intros [->|H]; lia. Qed.

Lemma progress_mark_safe st r c :
  r ∈ AI.knowledge st → c ∈ cells_at st r → progress st (AI.mark_safe st c).
Proof.
  intros Hr Hc. right. unfold weight. simpl.
  apply Nat.add_lt_mono_r. apply (sum_list_with_lt _ _ _ r); try done.
  - intros x Hx. rewrite cells_mark_safe by done. apply subseteq_size. set_solver.
  - rewrite cells_mark_safe by done. apply subset_size. set_solver.
Qed.

Lemma progress_mark_mine st r c :
  r ∈ AI.knowledge st → c ∈ cells_at st r → progress st (AI.mark_mine st c).
Proof.
  intros Hr Hc. right. unfold weight. simpl.
  apply Nat.add_lt_mono_r. apply (sum_list_with_lt _ _ _ r); try done.
  - intros x Hx. rewrite cells_mark_mine by done. apply subseteq_size. set_solver.
  - rewrite cells_mark_mine by done. apply subset_size. set_solver.
Qed.

Lemma progress_infer_body st r1 r2 st' :
  wf st → r1 ∈ AI.knowledge st → r2 ∈ AI.knowledge st →
  AI.infer_body st r1 r2 = Ok st' → progress st st'.
Proof.
  intros Hwf H1 H2 H.
  destruct (infer_body_spec _ _ _ _ Hwf H1 H2 H)
    as [->|(Hne & Hsub & Hsz & l1 & r & l2 & HK & Hr & _ & ->)]; [by left|].
  right. unfold weight. simpl. rewrite HK.
  unfold wf in Hwf. rewrite HK in Hwf.
  rewrite !Forall_app, Forall_cons in Hwf. destruct Hwf as (Hw1 & Hwr & Hw2).
  set (h' := AI.mk _ _ _ _ _ _ _ _).
  assert (Hold : ∀ x, x < length (AI.store st) → cells_at h' x = cells_at st x).
  { intros x Hx. unfold cells_at, AI.deref. simpl. by rewrite lookup_app_l. }
  assert (Hnew : cells_at h' (length (AI.store st)) = cells_at st r2 ∖ cells_at st r1).
  { unfold cells_at at 1, AI.deref. simpl. rewrite lookup_app_r by lia.
    by rewrite Nat.sub_diag. }
  assert (Hsame : ∀ l, Forall (λ x, x < length (AI.store st)) l →
            sum_list_with (λ x, size (cells_at h' x)) l
            = sum_list_with (λ x, size (cells_at st x)) l).
  { intros l Hl. induction Hl as [|x l Hx Hl IH]; simpl; [done|].
    by rewrite IH, Hold. }
  rewrite !sum_list_with_app. simpl. rewrite !Hsame by done.
  rewrite Hnew, !length_app. simpl.
  assert (Hrr : cells_at st r = cells_at st r2) by (unfold cells_at; by rewrite Hr).
  rewrite Hrr. rewrite size_difference by done.
  assert (size (cells_at st r1) ≠ 0) by (apply size_non_empty_iff; set_solver).
  pose proof (subseteq_size _ _ Hsub). lia.
Qed.

Lemma set_knowledge_same st : AI.set_knowledge st (AI.knowledge st) = st.
Proof. by destruct st. Qed.

Lemma progress_drop st :
  progress st (AI.set_knowledge st (filter (nonempty_at st) (AI.knowledge st))).
Proof.
  destruct (decide (Forall (nonempty_at st) (AI.knowledge st))) as [Hall|Hex].
  - left. rewrite filter_all by done. apply set_knowledge_same.
  - right. apply not_Forall_Exists in Hex; [|apply _].
    apply Exists_exists in Hex as (r & Hr & Hemp).
    pose proof (sum_list_with_filter (λ r, size (cells_at st r)) (nonempty_at st)
                  (AI.knowledge st)) as Hsum.
    pose proof (length_filter_lt (nonempty_at st) (AI.knowledge st) r Hr Hemp) as Hlen.
    change (sum_list_with (λ r, size (cells_at st r))
              (filter (nonempty_at st) (AI.knowledge st))
            + length (filter (nonempty_at st) (AI.knowledge st))
            < sum_list_with (λ r, size (cells_at st r)) (AI.knowledge st)
              + length (AI.knowledge st)).
    lia.
Qed.

Lemma pass_progress budget st st' flag :
  wf st → AI.pass budget st = Ok (st', flag) → progress st st' ∧ wf st'.
Proof.
  apply (pass_rule progress progress_refl progress_trans).
  - intros. by eapply progress_mark_safe.
  - intros. by eapply progress_mark_mine.
  - apply progress_infer_body.
  - intros. apply progress_drop.
Qed.

(** Lists of references are equal by value when they are the same list. *)
Lemma list_eqb_refl st l : AI.list_eqb st l l = true.
Proof. induction l as [|r l IH]; simpl; [done|]. by rewrite same_refl. Qed.

Lemma list_eqb_true st l1 l2 :
  AI.list_eqb st l1 l2 = true → AI.deref st <$> l1 = AI.deref st <$> l2.
Proof.
  revert l2. induction l1 as [|a l1 IH]; intros [|b l2] H; simpl in H; try done.
  apply andb_true_iff in H as [Hab H]. apply same_deref in Hab.
  rewrite !fmap_cons. f_equal; [done|by apply IH].
Qed.

Lemma list_eqb_false st l1 l2 :
  AI.list_eqb st l1 l2 = false → AI.deref st <$> l1 ≠ AI.deref st <$> l2.
Proof.
  revert l2. induction l1 as [|a l1 IH]; intros [|b l2] H; simpl in H; try done.
  rewrite !fmap_cons. intros [= Hab Hl]. apply andb_false_iff in H as [H|H].
  - unfold AI.same in H. apply orb_false_iff in H as [_ H].
    by rewrite Hab, eqb_refl in H.
  - by apply (IH l2).
Qed.

Lemma pass_flag budget st st' flag :
  AI.pass budget st = Ok (st', flag) →
  flag = AI.list_eqb st' (AI.knowledge st') (AI.knowledge st).
Proof.
  unfold AI.pass. destruct (AI.infer _ _); simpl; try done.
  destruct (AI.drop_empty _ _); simpl; try done. by intros [= <- <-].
Qed.

(** A pass that reports a change has lowered the measure. *)
Lemma pass_false_weight budget st st' :
  wf st → AI.pass budget st = Ok (st', false) → weight st' < weight st.
Proof.
  intros Hwf H. destruct (pass_progress _ _ _ _ Hwf H) as [[->|Hlt] _]; [|done].
  apply pass_flag in H. by rewrite list_eqb_refl in H.
Qed.

Lemma propagate_total budget fuel st :
  wf st → length (AI.knowledge st) < budget → weight st < fuel →
  ∃ st', AI.propagate budget fuel st = Ok st' ∧ wf st' ∧ weight st' ≤ weight st.
Proof.
  revert st. induction fuel as [|fuel IH]; intros st Hwf Hb Hw; [lia|].
  rewrite propagate_S.
  destruct (pass_total budget st Hwf Hb) as (st1 & flag & Hp & Hlen). rewrite Hp.
  destruct (pass_progress _ _ _ _ Hwf Hp) as [Hpr Hwf1].
  apply progress_weight in Hpr.
  destruct flag.
  - by exists st1.
  - pose proof (pass_false_weight _ _ _ Hwf Hp) as Hlt.
    destruct (IH st1) as (st' & Hst' & Hwf' & Hw'); try done; try lia.
    exists st'. split_and!; [done|done|lia].
Qed.

Lemma weight_length st : length (AI.knowledge st) ≤ weight st.
Proof. unfold weight. lia. Qed.

(** * Reachable engines *)

Lemma wf_alloc_append st s : wf st → wf (AI.append (AI.alloc st s).1 (AI.alloc st s).2).
Proof.
  unfold wf. simpl. intros H.
  assert (Hlen : length (AI.store st ++ [s]) = S (length (AI.store st)))
    by (rewrite length_app; simpl; lia).
  rewrite Forall_app, Forall_singleton.
  split; [|rewrite Hlen; lia].
  eapply Forall_impl; [exact H|]. simpl. intros. rewrite Hlen. lia.
Qed.

Lemma wf_ingest st c n : wf st → wf (AI.ingest st c n).
Proof.
  intros H. unfold AI.ingest. apply wf_alloc_append, wf_mark_safe. exact H.
Qed.

Lemma make_safe_move_state st : (AI.make_safe_move st).2 = st.
Proof. unfold AI.make_safe_move. by case_bool_decide. Qed.

Lemma make_random_move_state rnd st :
  (AI.make_random_move rnd st).2 = AI.set_random st (Some (AI.candidates st)).
Proof. unfold AI.make_random_move. by case_bool_decide. Qed.

Lemma add_knowledge_wf fuel st c n st' :
  wf st → AI.add_knowledge fuel st c n = Ok st' → wf st'.
Proof.
  intros Hwf H. unfold AI.add_knowledge in H.
  apply (propagate_rule (λ _ _, True)) in H; auto using wf_ingest. tauto.
Qed.

Lemma reachable_wf st : reachable st → wf st.
Proof.
  induction 1 as [h w|st c _ IH|st c _ IH|st c n fuel st' _ IH H|st _ IH|rnd st _ IH].
  - by apply Forall_nil.
  - by apply wf_mark_mine.
  - by apply wf_mark_safe.
  - by eapply add_knowledge_wf.
  - by rewrite make_safe_move_state.
  - by rewrite make_random_move_state.
Qed.

Lemma add_knowledge_total fuel st c n :
  wf st → weight (AI.ingest st c n) < fuel →
  ∃ st', AI.add_knowledge fuel st c n = Ok st'.
Proof.
  intros Hwf Hfuel. unfold AI.add_knowledge.
  destruct (propagate_total fuel fuel (AI.ingest st c n)) as (st' & H & _).
  - by apply wf_ingest.
  - pose proof (weight_length (AI.ingest st c n)). lia.
  - done.
  - by exists st'.
Qed.

(** C2.  The propagation loop of [add_knowledge] ends: started from any
    engine the public operations can reach, with any cell and any count, the
    call returns (no exception, no endless loop) as soon as the fuel, which
    bounds the number of passes, exceeds the measure of the engine at the
    start of the loop; so the loop makes at most that many passes. *)
Theorem propagation_terminates st c n :
  reachable st →
  (∃ fuel st', AI.add_knowledge fuel st c n = Ok st')
  ∧ (∀ fuel, weight (AI.ingest st c n) < fuel →
             ∃ st', AI.add_knowledge fuel st c n = Ok st').
Proof.
  intros Hr. apply reachable_wf in Hr. split.
  - exists (S (weight (AI.ingest st c n))). apply add_knowledge_total; [done|lia].
  - intros fuel Hfuel. by apply add_knowledge_total.
Qed.

Lemma propagation_terminates_witness :
  reachable (AI.init 8 8)
  ∧ ((∃ fuel st', AI.add_knowledge fuel (AI.init 8 8) (0, 0)%Z 1 = Ok st')
     ∧ (∀ fuel, weight (AI.ingest (AI.init 8 8) (0, 0)%Z 1) < fuel →
                ∃ st', AI.add_knowledge fuel (AI.init 8 8) (0, 0)%Z 1 = Ok st')).
Proof.
  split; [constructor|].
  apply (propagation_terminates (AI.init 8 8) (0, 0)%Z 1). constructor.
Defined.

(** * The neighbourhood of a cell *)

Lemma foldl_grid {A} (f : A → Z → Z → A) (a : A) (I J : list Z) :
  foldl (λ acc i, foldl (λ acc j, f acc i j) acc J) a I
  = foldl (λ acc p, f acc p.1 p.2) a (grid I J).
Proof.
  unfold grid. revert a. induction I as [|i I IH]; intros a; [done|].
  cbn [foldl mbind list_bind]. rewrite foldl_app, foldl_fmap. cbn [fst snd].
  apply IH.
Qed.

Lemma elem_of_grid I J p : p ∈ grid I J ↔ p.1 ∈ I ∧ p.2 ∈ J.
Proof.
  unfold grid. rewrite list_elem_of_bind. destruct p as [i j]. simpl. split.
  - intros (i' & Hp & Hi). apply list_elem_of_fmap in Hp as (j' & [= -> ->] & Hj). done.
  - intros [Hi Hj]. exists i. split; [|done]. apply list_elem_of_fmap. by exists j.
Qed.

Lemma NoDup_grid I J : NoDup I → NoDup J → NoDup (grid I J).
Proof.
  intros HI HJ. unfold grid. apply NoDup_bind; [| |done].
  - intros i1 i2 p _ _ H1 H2.
    apply list_elem_of_fmap in H1 as (j1 & -> & _).
    apply list_elem_of_fmap in H2 as (j2 & [= -> _] & _). done.
  - intros i _. apply NoDup_fmap_2; [|done]. by intros j1 j2 [= ->].
Qed.

Lemma elem_of_around x y : x ∈ Minesweeper.around y ↔ (y - 1 ≤ x ≤ y + 1)%Z.
Proof. unfold Minesweeper.around. rewrite elem_of_seqZ. lia. Qed.

Lemma NoDup_around y : NoDup (Minesweeper.around y).
Proof. apply NoDup_seqZ. Qed.

Lemma NoDup_block c : NoDup (block c).
Proof. apply NoDup_grid; apply NoDup_around. Qed.

Lemma in_bounds_true h w i j :
  Minesweeper.in_bounds h w i j = true ↔ inside h w (i, j).
Proof.
  unfold Minesweeper.in_bounds, inside.
  by rewrite andb_true_iff, !bool_decide_eq_true.
Qed.

Lemma in_bounds_false h w i j :
  Minesweeper.in_bounds h w i j = false ↔ ¬ inside h w (i, j).
Proof. rewrite <- in_bounds_true. by destruct (Minesweeper.in_bounds h w i j). Qed.

Lemma elem_of_neighbours_spec h w c p :
  p ∈ neighbours_spec h w c ↔
  (c.1 - 1 ≤ p.1 ≤ c.1 + 1)%Z ∧ (c.2 - 1 ≤ p.2 ≤ c.2 + 1)%Z
  ∧ p ≠ c ∧ (0 ≤ p.1 < h)%Z ∧ (0 ≤ p.2 < w)%Z.
Proof.
  unfold neighbours_spec, block, inside.
  rewrite elem_of_list_to_set, list_elem_of_filter, elem_of_grid, !elem_of_around.
  tauto.
Qed.

Lemma scan_step_cases st c acc p :
  (skipped st c p ∧ AI.scan_step st c acc p.1 p.2 = acc)
  ∨ (counted st c p ∧ AI.scan_step st c acc p.1 p.2 = (acc.1, (acc.2 - 1)%Z))
  ∨ (collected st c p ∧ AI.scan_step st c acc p.1 p.2 = (acc.1 ∪ {[p]}, acc.2)).
Proof.
  unfold AI.scan_step, counted, collected, skipped. destruct p as [i j]. simpl.
  case_bool_decide as Hc; [by left; split; [left|]|].
  destruct (Minesweeper.in_bounds _ _ i j) eqn:Hin.
  2:{ apply in_bounds_false in Hin. left. split; [|done]. by right; left. }
  apply in_bounds_true in Hin.
  destruct (bool_decide ((i, j) ∉ AI.moves_made st)) eqn:Hm; simpl.
  2:{ apply bool_decide_eq_false in Hm. left. split; [|done].
      right; right; left. by apply dec_stable. }
  apply bool_decide_eq_true in Hm.
  destruct (bool_decide ((i, j) ∉ AI.safes st)) eqn:Hs; simpl.
  2:{ apply bool_decide_eq_false in Hs. left. split; [|done].
      right; right; right. by apply dec_stable. }
  apply bool_decide_eq_true in Hs.
  case_bool_decide as Hmine; right; [left|right]; (split; [|done]); (split; [|done]);
    intros [?|[?|[?|?]]]; done.
Qed.

Lemma scan_fold st c L A k :
  foldl (λ acc p, AI.scan_step st c acc p.1 p.2) (A, k) L
  = (A ∪ list_to_set (filter (collected st c) L),
     (k - Z.of_nat (length (filter (counted st c) L)))%Z).
Proof.
  revert A k. induction L as [|p L IH]; intros A k; simpl.
  - f_equal; [set_solver|lia].
  - destruct (scan_step_cases st c (A, k) p) as [[Hp ->]|[[Hp ->]|[Hp ->]]];
      simpl; rewrite IH; rewrite !filter_cons.
    + rewrite !decide_False; [done| |]; unfold collected, counted; tauto.
    + rewrite decide_False, decide_True; [|done|unfold collected, counted in *; tauto].
      simpl. f_equal. lia.
    + rewrite decide_True, decide_False; [|unfold collected, counted in *; tauto|done].
      rewrite list_to_set_cons. f_equal. set_solver.
Qed.

Lemma scan_spec st c k :
  AI.scan st c k
  = (list_to_set (filter (collected st c) (block c)),
     (k - Z.of_nat (length (filter (counted st c) (block c))))%Z).
Proof.
  unfold AI.scan. rewrite (foldl_grid (AI.scan_step st c)). fold (block c).
  rewrite scan_fold. f_equal. set_solver.
Qed.

(** * Ingestion of an observation (steps 1 to 3 of add_knowledge) *)

Lemma collected_neighbours st c :
  list_to_set (filter (collected st c) (block c))
  =@{gset cell} neighbours_spec (AI.height st) (AI.width st) c
    ∖ (AI.moves_made st ∪ AI.safes st ∪ AI.mines st).
Proof.
  apply set_eq. intros p. unfold neighbours_spec.
  rewrite elem_of_difference, !elem_of_list_to_set, !list_elem_of_filter, !elem_of_union.
  unfold collected, skipped.
  destruct (decide (inside (AI.height st) (AI.width st) p)); tauto.
Qed.

Lemma counted_neighbours st c :
  length (filter (counted st c) (block c))
  = size ((neighbours_spec (AI.height st) (AI.width st) c ∩ AI.mines st)
          ∖ (AI.moves_made st ∪ AI.safes st)).
Proof.
  rewrite <- (size_list_to_set (C:=gset cell)) by apply NoDup_filter, NoDup_block.
  f_equal. apply set_eq. intros p. unfold neighbours_spec.
  rewrite elem_of_difference, elem_of_intersection, !elem_of_list_to_set,
    !list_elem_of_filter, !elem_of_union.
  unfold counted, skipped.
  destruct (decide (inside (AI.height st) (AI.width st) p)); tauto.
Qed.

Lemma ingest_unfold st c n :
  AI.ingest st c n
  = let st2 := AI.mark_safe (AI.set_moves_made st (AI.moves_made st ∪ {[c]})) c in
    AI.mk (AI.height st) (AI.width st) (AI.moves_made st ∪ {[c]}) (AI.mines st)
          (AI.safes st ∪ {[c]}) (AI.knowledge st ++ [length (AI.store st)]) (AI.random st)
          (AI.store (AI.mark_safe st c)
             ++ [Sentence.mk (AI.scan st2 c n).1 (AI.scan st2 c n).2]).
Proof.
  unfold AI.ingest, AI.append, AI.alloc, AI.set_knowledge, AI.set_store, Sentence.init.
  simpl. by rewrite alter_all_length.
Qed.

Lemma ingest_spec st c n :
  let st' := AI.ingest st c n in
  let N := neighbours_spec (AI.height st) (AI.width st) c in
  let seen := AI.moves_made st' ∪ AI.safes st' in
  AI.moves_made st' = AI.moves_made st ∪ {[c]}
  ∧ AI.safes st' = AI.safes st ∪ {[c]}
  ∧ AI.mines st' = AI.mines st
  ∧ AI.knowledge st' = AI.knowledge st ++ [length (AI.store st)]
  ∧ AI.store st'
    = AI.store (AI.mark_safe st c)
      ++ [Sentence.mk (N ∖ (seen ∪ AI.mines st))
                      (n - Z.of_nat (size ((N ∩ AI.mines st) ∖ seen)))].
Proof.
  intros st' N seen. subst st' N seen. rewrite ingest_unfold. cbn zeta.
  cbn [AI.moves_made AI.safes AI.mines AI.knowledge AI.store].
  split_and!; try done.
  do 2 f_equal. rewrite scan_spec. cbn [fst snd].
  rewrite collected_neighbours, counted_neighbours. done.
Qed.

(** When no known mine is also marked safe or probed, the count of the new
    sentence is the given count minus the number of neighbours in [mines]. *)
Lemma ingest_count_disjoint st c n :
  AI.mines st ## AI.moves_made st ∪ AI.safes st ∪ {[c]} →
  Sentence.count (AI.deref (AI.ingest st c n) (length (AI.store st)))
  = (n - Z.of_nat (size (neighbours_spec (AI.height st) (AI.width st) c ∩ AI.mines st)))%Z.
Proof.
  intros Hd.
  pose proof (ingest_spec st c n) as (Hmoves & Hsafes & _ & _ & Hstore).
  cbn zeta in Hstore. rewrite Hmoves, Hsafes in Hstore.
  unfold AI.deref. rewrite Hstore.
  rewrite lookup_app_r by (rewrite store_length_mark_safe; lia).
  rewrite store_length_mark_safe, Nat.sub_diag. simpl.
  do 3 f_equal. set_solver.
Qed.

(** C5, as the code has it.  [ingest] adds the cell to [moves_made] and to
    [safes], removes it from the stored sentences, and appends one new
    sentence: its cells are the in-bounds neighbours that are in none of
    [moves_made], [safes] and [mines], and its count is the given count minus
    the number of in-bounds neighbours that are in [mines] but in neither
    [moves_made] nor [safes]. *)
Theorem observation_ingestion st c n :
  let st' := AI.ingest st c n in
  let N := neighbours_spec (AI.height st) (AI.width st) c in
  let seen := AI.moves_made st' ∪ AI.safes st' in
  AI.moves_made st' = AI.moves_made st ∪ {[c]}
  ∧ AI.safes st' = AI.safes st ∪ {[c]}
  ∧ AI.mines st' = AI.mines st
  ∧ AI.knowledge st' = AI.knowledge st ++ [length (AI.store st)]
  ∧ AI.store st'
    = AI.store (AI.mark_safe st c)
      ++ [Sentence.mk (N ∖ (seen ∪ AI.mines st))
                      (n - Z.of_nat (size ((N ∩ AI.mines st) ∖ seen)))].
Proof. apply ingest_spec. Qed.

(** C5 as stated fails: with the neighbour (0,1) in both [mines] and [safes]
    the count of the new sentence is not lowered for it. *)
Lemma observation_ingestion_counterexample :
  let st := AI.mark_safe (AI.mark_mine (AI.init 1 2) (0, 1)%Z) (0, 1)%Z in
  let st' := AI.ingest st (0, 0)%Z 1 in
  reachable st
  ∧ (0, 1)%Z ∈ neighbours_spec 1 2 (0, 0)%Z ∩ AI.mines st
  ∧ Sentence.count (AI.deref st' (length (AI.store st))) = 1%Z
  ∧ Sentence.count (AI.deref st' (length (AI.store st)))
    ≠ (1 - Z.of_nat (size (neighbours_spec 1 2 (0, 0)%Z ∩ AI.mines st)))%Z.
Proof.
  cbn zeta. split_and!.
  - apply reach_mark_safe, reach_mark_mine, reach_init.
  - by vm_compute.
  - by vm_compute.
  - by vm_compute.
Qed.

(** * Soundness with respect to a board *)

Lemma true_in_mark_safe M c s :
  c ∉ M → true_in M s → true_in M (Sentence.mark_safe c s).
Proof.
  unfold true_in. intros Hc H. rewrite mark_safe_cells, mark_safe_count, <- H.
  do 2 f_equal. set_solver.
Qed.

Lemma true_in_mark_mine M c s :
  c ∈ M → true_in M s → true_in M (Sentence.mark_mine c s).
Proof.
  unfold true_in. intros Hc H. rewrite mark_mine_cells, mark_mine_count, <- H.
  case_bool_decide as Hin.
  - replace ((Sentence.cells s ∖ {[c]}) ∩ M) with ((Sentence.cells s ∩ M) ∖ {[c]})
      by set_solver.
    rewrite size_difference by set_solver. rewrite size_singleton.
    assert (size (Sentence.cells s ∩ M) ≠ 0) by (apply size_non_empty_iff; set_solver).
    lia.
  - replace ((Sentence.cells s ∖ {[c]}) ∩ M) with (Sentence.cells s ∩ M) by set_solver.
    lia.
Qed.

Lemma true_in_derived (M c1 c2 : gset cell) (n1 n2 : Z) :
  c1 ⊆ c2 → true_in M (Sentence.mk c1 n1) → true_in M (Sentence.mk c2 n2) →
  true_in M (Sentence.init (c2 ∖ c1) (n2 - n1)).
Proof.
  unfold true_in. simpl. intros Hsub <- <-.
  replace ((c2 ∖ c1) ∩ M) with ((c2 ∩ M) ∖ (c1 ∩ M)) by set_solver.
  rewrite size_difference by set_solver.
  assert (size (c1 ∩ M) ≤ size (c2 ∩ M)) by (apply subseteq_size; set_solver).
  lia.
Qed.

Lemma true_in_zero M s c :
  true_in M s → Sentence.count s = 0%Z → c ∈ Sentence.cells s → c ∉ M.
Proof.
  unfold true_in. intros H H0 Hc Hm. rewrite H0 in H.
  assert (Hs : size (Sentence.cells s ∩ M) = 0) by lia.
  apply size_empty_inv in Hs. set_solver.
Qed.

Lemma true_in_full M s c :
  true_in M s → Sentence.count s = Z.of_nat (size (Sentence.cells s)) →
  c ∈ Sentence.cells s → c ∈ M.
Proof.
  unfold true_in. intros H Hn Hc. rewrite Hn in H.
  assert (Heq : Sentence.cells s ∩ M = Sentence.cells s).
  { apply set_subseteq_size_eq; [set_solver|lia]. }
  set_solver.
Qed.

Lemma sound_mark_safe g st c :
  c ∉ Minesweeper.mines g → sound g st → sound g (AI.mark_safe st c).
Proof.
  intros Hc [H1 H2 H3 H4 H5 H6]. split; try done.
  - simpl. set_solver.
  - intros r Hr. rewrite deref_mark_safe by done. apply true_in_mark_safe; auto.
Qed.

Lemma sound_mark_mine g st c :
  c ∈ Minesweeper.mines g → sound g st → sound g (AI.mark_mine st c).
Proof.
  intros Hc [H1 H2 H3 H4 H5 H6]. split; try done.
  - simpl. set_solver.
  - intros r Hr. rewrite deref_mark_mine by done. apply true_in_mark_mine; auto.
Qed.

Lemma sound_infer_body g st r1 r2 st' :
  wf st → r1 ∈ AI.knowledge st → r2 ∈ AI.knowledge st →
  AI.infer_body st r1 r2 = Ok st' → sound g st → sound g st'.
Proof.
  intros Hwf Hr1 Hr2 H Hs.
  destruct (infer_body_spec _ _ _ _ Hwf Hr1 Hr2 H)
    as [->|(Hne & Hsub & Hsz & l1 & r & l2 & HK & Hr & _ & ->)]; [done|].
  destruct Hs as [H1 H2 H3 H4 H5 H6]. split; try done.
  cbn [AI.knowledge]. intros x Hx.
  assert (Hlt : ∀ y, y ∈ AI.knowledge st → y < length (AI.store st)).
  { intros y Hy. unfold wf in Hwf. rewrite Forall_forall in Hwf. by apply Hwf. }
  rewrite app_assoc in Hx. apply elem_of_app in Hx as [Hx|Hx].
  - assert (Hin : x ∈ AI.knowledge st) by (rewrite HK; set_solver).
    unfold AI.deref. cbn [AI.store]. rewrite lookup_app_l by by apply Hlt.
    by apply H6.
  - apply list_elem_of_singleton in Hx as ->.
    unfold AI.deref. cbn [AI.store]. rewrite lookup_app_r by lia.
    rewrite Nat.sub_diag. simpl. unfold derived.
    apply true_in_derived; [done| |].
    + specialize (H6 r1 Hr1). unfold cells_at, count_at. by destruct (AI.deref st r1).
    + specialize (H6 r2 Hr2). unfold cells_at, count_at. by destruct (AI.deref st r2).
Qed.

Lemma sound_drop g st l :
  l ⊆ AI.knowledge st → sound g st → sound g (AI.set_knowledge st l).
Proof.
  intros Hl [H1 H2 H3 H4 H5 H6]. split; try done.
  intros r Hr. apply H6. by apply Hl.
Qed.

Lemma sound_propagate g budget fuel st st' :
  wf st → AI.propagate budget fuel st = Ok st' → sound g st → sound g st'.
Proof.
  intros Hwf H.
  refine (proj1 (propagate_rule (λ st st', sound g st → sound g st')
                   (λ _ Hs, Hs) (λ a b c Hab Hbc Ha, Hbc (Hab Ha))
                   _ _ _ _ budget fuel st st' Hwf H)).
  - intros s r c _ Hr Hc Hin Hs. apply sound_mark_safe; [|done].
    eapply true_in_zero; [by apply (sound_knowledge _ _ Hs r)|done|done].
  - intros s r c _ Hr Hc Hin Hs. apply sound_mark_mine; [|done].
    eapply true_in_full; [by apply (sound_knowledge _ _ Hs r)|done|done].
  - intros s r1 r2 s'. apply sound_infer_body.
  - intros s _. apply sound_drop. intros x Hx.
    by apply list_elem_of_filter in Hx as [_ Hx].
Qed.

(** The count the board reports is the number of mines among the neighbours. *)
Lemma nearby_fold g c L m :
  foldl (λ m p, Minesweeper.nearby_step g c m p.1 p.2) m L
  = (m + Z.of_nat (length (filter
       (λ p, (p ≠ c ∧ inside (Minesweeper.height g) (Minesweeper.width g) p)
             ∧ p ∈ Minesweeper.mines g) L)))%Z.
Proof.
  revert m. induction L as [|p L IH]; intros m; simpl; [lia|].
  rewrite IH, filter_cons. unfold Minesweeper.nearby_step, Minesweeper.board.
  destruct p as [i j]. simpl.
  case_bool_decide as Hc.
  { rewrite decide_False by tauto. done. }
  destruct (Minesweeper.in_bounds _ _ i j) eqn:Hin.
  2:{ apply in_bounds_false in Hin. rewrite decide_False by tauto. done. }
  apply in_bounds_true in Hin.
  case_bool_decide as Hm.
  - rewrite decide_True by tauto. simpl. lia.
  - rewrite decide_False by tauto. done.
Qed.

Lemma nearby_mines_spec g c :
  Minesweeper.nearby_mines g c
  = Z.of_nat (size (neighbours_spec (Minesweeper.height g) (Minesweeper.width g) c
                    ∩ Minesweeper.mines g)).
Proof.
  unfold Minesweeper.nearby_mines.
  rewrite (foldl_grid (λ m i j, Minesweeper.nearby_step g c m i j)). fold (block c).
  rewrite nearby_fold, Z.add_0_l. f_equal.
  rewrite <- (size_list_to_set (C:=gset cell)) by apply NoDup_filter, NoDup_block.
  f_equal. apply set_eq. intros p. unfold neighbours_spec.
  rewrite elem_of_intersection, !elem_of_list_to_set, !list_elem_of_filter. tauto.
Qed.

Lemma true_in_observation (Ms Ns seen known : gset cell) :
  known ⊆ Ms → seen ## Ms →
  true_in Ms (Sentence.mk (Ns ∖ (seen ∪ known))
                (Z.of_nat (size (Ns ∩ Ms)) - Z.of_nat (size ((Ns ∩ known) ∖ seen)))).
Proof.
  intros Hm Hs. unfold true_in. simpl.
  replace (Ns ∩ Ms) with (((Ns ∖ (seen ∪ known)) ∩ Ms) ∪ ((Ns ∩ known) ∖ seen)).
  - assert (Hd : ((Ns ∖ (seen ∪ known)) ∩ Ms) ## ((Ns ∩ known) ∖ seen)) by set_solver.
    rewrite (size_union _ _ Hd). lia.
  - apply set_eq. intros p. destruct (decide (p ∈ known)); set_solver.
Qed.

Lemma sound_ingest g st c :
  wf st → c ∉ Minesweeper.mines g → sound g st →
  sound g (AI.ingest st c (Minesweeper.nearby_mines g c)).
Proof.
  intros Hwf Hc Hs. rewrite nearby_mines_spec.
  pose proof (ingest_spec st c
                (Z.of_nat (size (neighbours_spec (Minesweeper.height g)
                                   (Minesweeper.width g) c ∩ Minesweeper.mines g))))
    as (Hmoves & Hsafes & Hmines & HK & Hstore).
  pose proof (sound_mark_safe g st c Hc Hs) as Hs2.
  destruct Hs as [H1 H2 H3 H4 H5 H6].
  cbn zeta in Hstore. rewrite Hmoves, Hsafes, H1, H2 in Hstore.
  split.
  - by rewrite ingest_unfold.
  - by rewrite ingest_unfold.
  - by rewrite Hmines.
  - rewrite Hsafes. set_solver.
  - rewrite Hmoves. set_solver.
  - rewrite HK. intros r Hr. unfold AI.deref. rewrite Hstore.
    apply elem_of_app in Hr as [Hr|Hr].
    + rewrite lookup_app_l.
      * apply (sound_knowledge _ _ Hs2 r). done.
      * rewrite store_length_mark_safe. unfold wf in Hwf.
        rewrite Forall_forall in Hwf. by apply Hwf.
    + apply list_elem_of_singleton in Hr as ->.
      rewrite lookup_app_r by (rewrite store_length_mark_safe; lia).
      rewrite store_length_mark_safe, Nat.sub_diag. simpl.
      apply true_in_observation; [done|set_solver].
Qed.

Lemma sound_init g : sound g (AI.init (Minesweeper.height g) (Minesweeper.width g)).
Proof. split; try done; simpl; set_solver. Qed.

Lemma sound_add_knowledge g fuel st c st' :
  wf st → c ∉ Minesweeper.mines g → sound g st →
  AI.add_knowledge fuel st c (Minesweeper.nearby_mines g c) = Ok st' →
  sound g st'.
Proof.
  intros Hwf Hc Hs H. unfold AI.add_knowledge in H.
  eapply sound_propagate; [|exact H|]; [by apply wf_ingest|by apply sound_ingest].
Qed.

Lemma truthful_run_reachable g st : truthful_run g st → reachable st.
Proof.
  induction 1 as [|st c fuel st' _ IH _ H]; [constructor|].
  by eapply reach_add_knowledge.
Qed.

Lemma truthful_run_sound g st : truthful_run g st → sound g st.
Proof.
  induction 1 as [|st c fuel st' Hrun IH Hc H]; [apply sound_init|].
  eapply sound_add_knowledge; eauto.
  by apply reachable_wf, truthful_run_reachable with g.
Qed.

(** C1.  Soundness.  Whatever the mines of the board are, after any sequence
    of [add_knowledge] calls in which every revealed cell is not a mine and
    every count is the number of mines among the in-bounds neighbours of the
    revealed cell, every cell of the engine's [mines] is a mine of the board
    and no cell of its [safes] is one; and every further such call returns. *)
Theorem soundness g st :
  truthful_run g st →
  AI.mines st ⊆ Minesweeper.mines g
  ∧ AI.safes st ## Minesweeper.mines g
  ∧ ∀ c, c ∉ Minesweeper.mines g →
         ∃ fuel st', AI.add_knowledge fuel st c (Minesweeper.nearby_mines g c) = Ok st'
                     ∧ truthful_run g st'.
Proof.
  intros Hrun. pose proof (truthful_run_sound g st Hrun) as Hs.
  split_and!; [apply Hs|apply Hs|].
  intros c Hc.
  pose proof (reachable_wf _ (truthful_run_reachable g st Hrun)) as Hwf.
  destruct (add_knowledge_total
              (S (weight (AI.ingest st c (Minesweeper.nearby_mines g c))))
              st c (Minesweeper.nearby_mines g c) Hwf) as [st' H]; [lia|].
  eexists _, st'. split; [exact H|]. by eapply run_reveal.
Qed.

Lemma small_engine_run : truthful_run small_game small_engine.
Proof.
  apply (run_reveal small_game (AI.init 1 2) (0, 0)%Z 3).
  - apply run_init.
  - by vm_compute.
  - by vm_compute.
Defined.

Lemma soundness_witness :
  truthful_run small_game small_engine
  ∧ (AI.mines small_engine ⊆ Minesweeper.mines small_game
     ∧ AI.safes small_engine ## Minesweeper.mines small_game
     ∧ ∀ c, c ∉ Minesweeper.mines small_game →
            ∃ fuel st', AI.add_knowledge fuel small_engine c
                          (Minesweeper.nearby_mines small_game c) = Ok st'
                        ∧ truthful_run small_game st').
Proof.
  split; [exact small_engine_run|].
  exact (soundness small_game small_engine small_engine_run).
Defined.

(** * Agreement of [safes] and [mines] *)

Lemma agree_mark_safe st c : c ∉ AI.mines st → agree st → agree (AI.mark_safe st c).
Proof.
  intros Hc [Hd HK]. split.
  - simpl. set_solver.
  - intros r Hr. rewrite cells_mark_safe by done. specialize (HK r Hr).
    simpl. set_solver.
Qed.

Lemma agree_mark_mine st c : c ∉ AI.safes st → agree st → agree (AI.mark_mine st c).
Proof.
  intros Hc [Hd HK]. split.
  - simpl. set_solver.
  - intros r Hr. rewrite cells_mark_mine by done. specialize (HK r Hr).
    simpl. set_solver.
Qed.

Lemma agree_infer_body st r1 r2 st' :
  wf st → r1 ∈ AI.knowledge st → r2 ∈ AI.knowledge st →
  AI.infer_body st r1 r2 = Ok st' → agree st → agree st'.
Proof.
  intros Hwf Hr1 Hr2 H [Hd HK].
  destruct (infer_body_spec _ _ _ _ Hwf Hr1 Hr2 H)
    as [->|(Hne & Hsub & Hsz & l1 & r & l2 & HKK & Hr & _ & ->)]; [done|].
  split; [done|]. cbn [AI.knowledge AI.safes AI.mines]. intros x Hx.
  assert (Hlt : ∀ y, y ∈ AI.knowledge st → y < length (AI.store st)).
  { intros y Hy. unfold wf in Hwf. rewrite Forall_forall in Hwf. by apply Hwf. }
  rewrite app_assoc in Hx. apply elem_of_app in Hx as [Hx|Hx].
  - assert (Hin : x ∈ AI.knowledge st) by (rewrite HKK; set_solver).
    unfold cells_at, AI.deref. cbn [AI.store]. rewrite lookup_app_l by by apply Hlt.
    by apply HK.
  - apply list_elem_of_singleton in Hx as ->.
    unfold cells_at at 1, AI.deref. cbn [AI.store]. rewrite lookup_app_r by lia.
    rewrite Nat.sub_diag. simpl. specialize (HK r2 Hr2). set_solver.
Qed.

Lemma agree_propagate budget fuel st st' :
  wf st → AI.propagate budget fuel st = Ok st' → agree st → agree st'.
Proof.
  intros Hwf H.
  refine (proj1 (propagate_rule (λ st st', agree st → agree st')
                   (λ _ Hs, Hs) (λ a b c Hab Hbc Ha, Hbc (Hab Ha))
                   _ _ _ _ budget fuel st st' Hwf H)).
  - intros s r c _ Hr Hc Hin Hs. apply agree_mark_safe; [|done].
    destruct Hs as [_ HK]. specialize (HK r Hr). set_solver.
  - intros s r c _ Hr Hc Hin Hs. apply agree_mark_mine; [|done].
    destruct Hs as [_ HK]. specialize (HK r Hr). set_solver.
  - intros s r1 r2 s'. apply agree_infer_body.
  - intros s _ [Hd HK]. split; [done|]. intros r Hr. apply HK.
    by apply list_elem_of_filter in Hr as [_ Hr].
Qed.

Lemma agree_ingest st c n :
  wf st → c ∉ AI.mines st → agree st → agree (AI.ingest st c n).
Proof.
  intros Hwf Hc Ha.
  pose proof (ingest_spec st c n) as (Hmoves & Hsafes & Hmines & HK & Hstore).
  cbn zeta in Hstore. rewrite Hmoves, Hsafes in Hstore.
  pose proof (agree_mark_safe st c Hc Ha) as [Hd2 HK2].
  destruct Ha as [Hd HKa]. split.
  - rewrite Hsafes, Hmines. set_solver.
  - rewrite HK. intros r Hr. rewrite Hsafes, Hmines.
    unfold cells_at, AI.deref. rewrite Hstore.
    apply elem_of_app in Hr as [Hr|Hr].
    + rewrite lookup_app_l.
      * apply (HK2 r Hr).
      * rewrite store_length_mark_safe. unfold wf in Hwf.
        rewrite Forall_forall in Hwf. by apply Hwf.
    + apply list_elem_of_singleton in Hr as ->.
      rewrite lookup_app_r by (rewrite store_length_mark_safe; lia).
      rewrite store_length_mark_safe, Nat.sub_diag. simpl. set_solver.
Qed.

Lemma consistent_run_reachable st : consistent_run st → reachable st.
Proof.
  induction 1; [constructor|by constructor|by constructor|].
  by eapply reach_add_knowledge.
Qed.

Lemma consistent_run_agree st : consistent_run st → agree st.
Proof.
  induction 1 as [h w|st c Hrun IH Hc|st c Hrun IH Hc|st c n fuel st' Hrun IH Hc H].
  - split; simpl; set_solver.
  - by apply agree_mark_mine.
  - by apply agree_mark_safe.
  - pose proof (reachable_wf _ (consistent_run_reachable _ Hrun)) as Hwf.
    unfold AI.add_knowledge in H.
    eapply agree_propagate; [|exact H|]; [by apply wf_ingest|by apply agree_ingest].
Qed.

(** C3, as the code has it.  [safes] and [mines] are disjoint in every
    engine reached by calls of [mark_mine], [mark_safe] and [add_knowledge]
    (with any counts) in which no cell is marked the opposite way. *)
Theorem disjointness st : consistent_run st → AI.safes st ## AI.mines st.
Proof. intros H. apply consistent_run_agree in H. apply H. Qed.

Lemma disjointness_witness :
  consistent_run (AI.mark_safe (AI.mark_mine (AI.init 8 8) (0, 0)%Z) (0, 1)%Z)
  ∧ AI.safes (AI.mark_safe (AI.mark_mine (AI.init 8 8) (0, 0)%Z) (0, 1)%Z)
    ## AI.mines (AI.mark_safe (AI.mark_mine (AI.init 8 8) (0, 0)%Z) (0, 1)%Z).
Proof.
  assert (H : consistent_run (AI.mark_safe (AI.mark_mine (AI.init 8 8) (0, 0)%Z) (0, 1)%Z)).
  { apply cons_mark_safe; [apply cons_mark_mine; [apply cons_init|]|].
    - by vm_compute.
    - by vm_compute. }
  split; [exact H|exact (disjointness _ H)].
Defined.

(** C3 as stated fails: the marking operations add the cell without looking
    at the other set. *)
Lemma disjointness_counterexample :
  let st := AI.mark_safe (AI.mark_mine (AI.init 8 8) (0, 0)%Z) (0, 0)%Z in
  reachable st ∧ ¬ (AI.safes st ## AI.mines st).
Proof.
  cbn zeta. split.
  - apply reach_mark_safe, reach_mark_mine, reach_init.
  - intros H. apply (H (0, 0)%Z); by vm_compute.
Qed.

(** * The queries of a sentence *)

(** C4, as the code has it.  [known_safes] returns the cells of the sentence
    when the count is 0 and the sentence has cells; it returns [None] when
    the count is 0 and the sentence is empty, and when the count is not 0. *)
Theorem known_safes_spec s :
  Sentence.known_safes s
  = if bool_decide (Sentence.count s = 0%Z ∧ Sentence.cells s ≠ ∅)
    then Some (Sentence.cells s)
    else None.
Proof.
  unfold Sentence.known_safes. rewrite collect_id.
  repeat case_bool_decide; simpl; try done; tauto.
Qed.

(** C4 as stated fails on the empty sentence of count 0: the result is
    [None], not the empty set. *)
Lemma known_safes_counterexample :
  Sentence.count (Sentence.mk ∅ 0) = 0%Z
  ∧ Sentence.known_safes (Sentence.mk ∅ 0) = None
  ∧ Sentence.known_safes (Sentence.mk ∅ 0) ≠ Some (Sentence.cells (Sentence.mk ∅ 0)).
Proof. split_and!; by vm_compute. Qed.

(** * Marking twice *)

Lemma alter_all_idem (f : Sentence.t → Sentence.t) l (h : list Sentence.t) :
  (∀ x, f (f x) = f x) →
  foldl (λ h r, alter f r h) (foldl (λ h r, alter f r h) h l) l
  = foldl (λ h r, alter f r h) h l.
Proof.
  intros Hf. apply list_eq. intros a. rewrite !alter_all_lookup by done.
  case_bool_decide; [|done]. destruct (h !! a); simpl; [|done]. by rewrite Hf.
Qed.

(** C9.  Marking a cell a second time changes nothing: the engine after two
    calls of [mark_safe] (of [mark_mine]) with the same cell is the engine
    after one, in every field and in every stored sentence. *)
Theorem marking_idempotent st c :
  AI.mark_safe (AI.mark_safe st c) c = AI.mark_safe st c
  ∧ AI.mark_mine (AI.mark_mine st c) c = AI.mark_mine st c.
Proof.
  split.
  - unfold AI.mark_safe, AI.update_all, AI.set_store, AI.set_safes. simpl.
    rewrite (alter_all_idem _ _ _ (mark_safe_idem c)).
    f_equal. set_solver.
  - unfold AI.mark_mine, AI.update_all, AI.set_store, AI.set_mines. simpl.
    rewrite (alter_all_idem _ _ _ (mark_mine_idem c)).
    f_equal. set_solver.
Qed.

(** * Move selection *)

(** C8.  [make_safe_move] leaves the engine as it is; a returned cell is in
    [safes] and not in [moves_made]; and [None] is returned exactly when
    every safe cell has been probed (in particular when [safes] is empty). *)
Theorem make_safe_move_spec st :
  (AI.make_safe_move st).2 = st
  ∧ (∀ c, (AI.make_safe_move st).1 = Some c → c ∈ AI.safes st ∧ c ∉ AI.moves_made st)
  ∧ ((AI.make_safe_move st).1 = None ↔ ∀ c, c ∈ AI.safes st → c ∈ AI.moves_made st)
  ∧ ((∃ c, c ∈ AI.safes st ∧ c ∉ AI.moves_made st) →
     ∃ c, (AI.make_safe_move st).1 = Some c ∧ c ∈ AI.safes st ∧ c ∉ AI.moves_made st).
Proof.
  assert (Hsome : ∀ c, (AI.make_safe_move st).1 = Some c →
                       c ∈ AI.safes st ∧ c ∉ AI.moves_made st).
  { intros c. unfold AI.make_safe_move. case_bool_decide as He; simpl; [|done].
    intros H. apply find_some in H as [Hin Hc].
    apply bool_decide_eq_true in Hc. apply list_elem_of_In in Hin.
    by apply elem_of_elements in Hin. }
  assert (Hnone : (AI.make_safe_move st).1 = None ↔
                  ∀ c, c ∈ AI.safes st → c ∈ AI.moves_made st).
  { unfold AI.make_safe_move. case_bool_decide as He; simpl.
    - split.
      + intros H c Hc. apply dec_stable. intros Hn.
        assert (Hf : bool_decide (c ∉ AI.moves_made st) = false).
        { apply (find_none _ _ H c). by apply list_elem_of_In, elem_of_elements. }
        by apply bool_decide_eq_false in Hf.
      + intros H. destruct (find _ _) as [c|] eqn:Hf; [|done].
        apply find_some in Hf as [Hin Hc]. apply bool_decide_eq_true in Hc.
        apply list_elem_of_In, elem_of_elements in Hin. by apply H in Hin.
    - split; [|done]. intros _ c Hc. set_solver. }
  split_and!; [apply make_safe_move_state|done|done|].
  intros (c & Hc & Hm). destruct (AI.make_safe_move st).1 as [c'|] eqn:Hr.
  - exists c'. split; [done|]. by apply Hsome.
  - exfalso. apply Hm. by apply (proj1 Hnone).
Qed.

Lemma candidates_fold (st : AI.t) (L : list cell) (A : gset cell) :
  foldl (λ acc p, AI.candidate_step st acc p.1 p.2) A L
  = A ∪ list_to_set (filter (λ p, (p ∉ AI.moves_made st) ∧ (p ∉ AI.mines st)) L).
Proof.
  revert A. induction L as [|[i j] L IH]; intros A; simpl; [set_solver|].
  rewrite IH, filter_cons. unfold AI.candidate_step.
  destruct (bool_decide ((i, j) ∉ AI.moves_made st)) eqn:H1;
    destruct (bool_decide ((i, j) ∉ AI.mines st)) eqn:H2; simpl;
    try apply bool_decide_eq_true in H1; try apply bool_decide_eq_true in H2;
    try apply bool_decide_eq_false in H1; try apply bool_decide_eq_false in H2.
  - rewrite decide_True by done. rewrite list_to_set_cons. set_solver.
  - rewrite decide_False by tauto. done.
  - rewrite decide_False by tauto. done.
  - rewrite decide_False by tauto. done.
Qed.

Lemma elem_of_candidates st p :
  p ∈ AI.candidates st ↔
  inside (AI.height st) (AI.width st) p ∧ (p ∉ AI.moves_made st) ∧ (p ∉ AI.mines st).
Proof.
  unfold AI.candidates. rewrite (foldl_grid (AI.candidate_step st)), candidates_fold.
  rewrite elem_of_union, elem_of_list_to_set, list_elem_of_filter, elem_of_grid,
    !elem_of_seqZ. unfold inside. set_solver by lia.
Qed.

(** C10.  [make_random_move] stores the candidate set in the attribute
    [random] at every call, so the engine after the call is the engine before
    it only if the attribute already held that set; nothing else changes.
    The candidates are the cells of the grid that are neither in
    [moves_made] nor in [mines]; a returned cell is a candidate, and [None]
    is returned exactly when there is no candidate. *)
Theorem make_random_move_spec rnd st :
  let res := AI.make_random_move rnd st in
  res.2 = AI.set_random st (Some (AI.candidates st))
  ∧ AI.random res.2 = Some (AI.candidates st)
  ∧ (res.2 = st ↔ AI.random st = Some (AI.candidates st))
  ∧ AI.moves_made res.2 = AI.moves_made st
  ∧ AI.safes res.2 = AI.safes st
  ∧ AI.mines res.2 = AI.mines st
  ∧ AI.knowledge res.2 = AI.knowledge st
  ∧ AI.store res.2 = AI.store st
  ∧ (∀ p, p ∈ AI.candidates st ↔
          (0 ≤ p.1 < AI.height st)%Z ∧ (0 ≤ p.2 < AI.width st)%Z
          ∧ (p ∉ AI.moves_made st) ∧ (p ∉ AI.mines st))
  ∧ (∀ c, res.1 = Some c → c ∈ AI.candidates st)
  ∧ (res.1 = None ↔ AI.candidates st = ∅).
Proof.
  cbn zeta. rewrite make_random_move_state.
  split_and!; try done.
  - split.
    + intros <-. done.
    + intros H. destruct st. simpl in *. by rewrite H.
  - intros p. rewrite elem_of_candidates. unfold inside. tauto.
  - intros c. unfold AI.make_random_move. case_bool_decide as He; simpl; [|done].
    intros H. apply list_elem_of_lookup_2 in H. by apply elem_of_elements in H.
  - unfold AI.make_random_move. case_bool_decide as He; simpl; [|done].
    split; [|done]. intros H. apply lookup_ge_None in H.
    assert (length (elements (AI.candidates st)) ≠ 0).
    { intros H0. apply length_zero_iff_nil, elements_empty_inv in H0.
      apply He. by apply leibniz_equiv. }
    pose proof (Nat.mod_upper_bound rnd (length (elements (AI.candidates st)))).
    lia.
Qed.

(** * The subset inference on an example *)

(** C6.  With the knowledge [A = {(0,0),(0,1)} = 1] and
    [B = {(0,0),(0,1),(0,2)} = 2], the first pass of the loop replaces [B] by
    the derived sentence [{(0,2)} = 1], and the loop ends with [(0,2)] added
    to [mines], [B] gone and only [A] left in the knowledge. *)
Theorem subset_inference_example h w moves known safe rnd :
  let st := AI.mk h w moves known safe [0; 1] rnd [sentence_A; sentence_B] in
  (∃ st1, AI.pass 3 st = Ok (st1, false)
          ∧ vals st1 = [sentence_A; Sentence.mk {[ (0, 2)%Z ]} 1]
          ∧ AI.mines st1 = known)
  ∧ (∃ st', AI.propagate 3 3 st = Ok st'
            ∧ vals st' = [sentence_A]
            ∧ (sentence_B ∉ vals st')
            ∧ AI.mines st' = known ∪ {[ (0, 2)%Z ]}
            ∧ AI.safes st' = safe
            ∧ AI.moves_made st' = moves).
Proof.
  cbn zeta. split.
  - eexists. split_and!.
    + vm_compute. reflexivity.
    + vm_compute. reflexivity.
    + vm_compute. reflexivity.
  - eexists. split_and!.
    + vm_compute. reflexivity.
    + vm_compute. reflexivity.
    + vm_compute. intros H. apply list_elem_of_singleton in H. discriminate H.
    + vm_compute. reflexivity.
    + vm_compute. reflexivity.
    + vm_compute. reflexivity.
Qed.

(** * The fixed point of the propagation loop *)

Lemma extends_refl st : extends st st.
Proof. exists []. by rewrite app_nil_r. Qed.

Lemma extends_trans a b c : extends a b → extends b c → extends a c.
Proof. intros [l1 H1] [l2 H2]. exists (l1 ++ l2). by rewrite H2, H1, app_assoc. Qed.

Lemma extends_deref st st' r :
  extends st st' → r < length (AI.store st) → AI.deref st' r = AI.deref st r.
Proof. intros [l Hl] Hr. unfold AI.deref. by rewrite Hl, lookup_app_l. Qed.

Lemma infer_extends budget st st' :
  wf st → AI.infer budget st = Ok st' → extends st st'.
Proof.
  intros Hwf H.
  refine (proj1 (infer_rule extends extends_refl extends_trans _ budget st st' Hwf H)).
  intros s r1 r2 s' Hs H1 H2 Hb.
  destruct (infer_body_spec _ _ _ _ Hs H1 H2 Hb)
    as [->|(_ & _ & _ & l1 & r & l2 & _ & _ & _ & ->)]; [apply extends_refl|].
  by eexists.
Qed.

Lemma infer_progress budget st st' :
  wf st → AI.infer budget st = Ok st' → progress st st' ∧ wf st'.
Proof.
  intros Hwf H.
  exact (infer_rule progress progress_refl progress_trans progress_infer_body
           budget st st' Hwf H).
Qed.

Lemma mark_additional_progress st : wf st → progress st (AI.mark_additional st).
Proof.
  intros Hwf. apply (mark_additional_rule progress progress_refl progress_trans); [| |done].
  - intros. by eapply progress_mark_safe.
  - intros. by eapply progress_mark_mine.
Qed.

Lemma conclude_cells st r r' :
  r' ∈ AI.knowledge st → cells_at (AI.conclude st r) r' ⊆ cells_at st r'.
Proof.
  intros Hr'. unfold AI.conclude.
  set (st1 := AI.mark_each AI.mark_safe st _).
  assert (H1 : cells_at st1 r' ⊆ cells_at st r' ∧ AI.knowledge st1 = AI.knowledge st).
  { subst st1. destruct (Sentence.known_safes _) as [X|]; simpl; [|done].
    case_bool_decide; [|done]. rewrite cells_mark_safes, knowledge_mark_safes by done.
    set_solver. }
  destruct H1 as [Hsub HK].
  destruct (Sentence.known_mines _) as [X|]; simpl; [|done].
  case_bool_decide; [|done]. rewrite cells_mark_mines by by rewrite HK.
  set_solver.
Qed.

Lemma conclude_changes st r :
  r ∈ AI.knowledge st → AI.conclude st r = st ∨ cells_at (AI.conclude st r) r = ∅.
Proof.
  intros Hr. unfold AI.conclude.
  destruct (Sentence.known_safes (AI.deref st r)) as [X|] eqn:HX; simpl.
  - apply known_safes_Some in HX as (Hc & Hne & ->).
    rewrite bool_decide_eq_true_2 by done.
    set (st1 := foldl AI.mark_safe st _).
    assert (He : cells_at st1 r = ∅).
    { subst st1. rewrite cells_mark_safes by done.
      rewrite list_to_set_elements_L. unfold cells_at. set_solver. }
    right. unfold Sentence.known_mines.
    unfold cells_at in He. rewrite He.
    rewrite (bool_decide_eq_false_2 (∅ ≠ ∅)) by (intros H; by apply H).
    simpl. done.
  - destruct (Sentence.known_mines (AI.deref st r)) as [X|] eqn:HY; simpl; [|by left].
    apply known_mines_Some in HY as (Hc & Hne & ->).
    rewrite bool_decide_eq_true_2 by done.
    right. rewrite cells_mark_mines by done.
    rewrite list_to_set_elements_L. unfold cells_at. set_solver.
Qed.

Lemma has_empty_conclude st r : has_empty st → has_empty (AI.conclude st r).
Proof.
  intros (r' & Hr' & He). exists r'. rewrite knowledge_conclude. split; [done|].
  pose proof (conclude_cells st r r' Hr'). set_solver.
Qed.

Lemma concludes_changes l st :
  l ⊆ AI.knowledge st →
  foldl AI.conclude st l = st ∨ has_empty (foldl AI.conclude st l).
Proof.
  revert st. induction l as [|r l IH]; intros st Hl; simpl; [by left|].
  assert (Hr : r ∈ AI.knowledge st) by (apply Hl; set_solver).
  assert (Hl' : l ⊆ AI.knowledge (AI.conclude st r)).
  { rewrite knowledge_conclude. intros x Hx. apply Hl. set_solver. }
  assert (Hkeep : ∀ s, has_empty s → has_empty (foldl AI.conclude s l)).
  { clear. induction l as [|a l IHl]; intros s Hs; simpl; [done|].
    by apply IHl, has_empty_conclude. }
  destruct (conclude_changes st r Hr) as [Heq|He].
  - rewrite Heq. apply IH. intros x Hx. apply Hl. set_solver.
  - right. apply Hkeep. exists r. by rewrite knowledge_conclude.
Qed.

Lemma weight_vals st st' : vals st' = vals st → weight st' = weight st.
Proof.
  intros H. unfold weight.
  assert (Hw : ∀ s, sum_list_with (λ r, size (cells_at s r)) (AI.knowledge s)
                    = sum_list_with (λ x, size (Sentence.cells x)) (vals s)).
  { intros s. unfold vals, cells_at. induction (AI.knowledge s) as [|a l IH]; [done|].
    rewrite fmap_cons. simpl. by rewrite IH. }
  assert (Hl : ∀ s, length (AI.knowledge s) = length (vals s)).
  { intros s. unfold vals. by rewrite length_fmap. }
  by rewrite !Hw, !Hl, H.
Qed.

(** A pass whose final comparison succeeds has done nothing at all. *)
Lemma pass_true_same budget st st' :
  wf st → AI.pass budget st = Ok (st', true) → st' = st.
Proof.
  intros Hwf Hp. pose proof (pass_flag _ _ _ _ Hp) as Hflag.
  unfold AI.pass in Hp.
  destruct (AI.infer budget (AI.mark_additional st)) as [st2| |] eqn:H2; simpl in Hp;
    try done.
  rewrite drop_empty_spec in Hp. simpl in Hp. injection Hp as Hst' _.
  set (st1 := AI.mark_additional st) in *.
  assert (Hwf1 : wf st1) by by apply wf_concludes.
  assert (HK1 : AI.knowledge st1 = AI.knowledge st) by apply knowledge_concludes.
  destruct (infer_progress _ _ _ Hwf1 H2) as [Hpr2 Hwf2].
  pose proof (infer_extends _ _ _ Hwf1 H2) as Hext.
  pose proof (progress_drop st2) as Hpr3. rewrite Hst' in Hpr3.
  (* by value, the knowledge at the end is the knowledge after the marking *)
  symmetry in Hflag. apply list_eqb_true in Hflag.
  assert (Hvals : vals st' = vals st1).
  { unfold vals. rewrite Hflag, HK1. apply list_fmap_ext. intros i r Hr.
    rewrite <- Hst', deref_set_knowledge. apply extends_deref; [done|].
    apply list_elem_of_lookup_2 in Hr. rewrite <- HK1 in Hr.
    unfold wf in Hwf1. rewrite Forall_forall in Hwf1. by apply Hwf1. }
  apply weight_vals in Hvals.
  pose proof (progress_weight _ _ Hpr2). pose proof (progress_weight _ _ Hpr3).
  destruct Hpr2 as [E2|?]; [|lia]. destruct Hpr3 as [E3|?]; [|lia].
  assert (E13 : st' = st1) by congruence.
  (* so the marking has emptied no sentence, and has done nothing *)
  destruct (concludes_changes (AI.knowledge st) st) as [E1|(r & Hr & He)]; [done| |].
  - fold (AI.mark_additional st) in E1. fold st1 in E1. congruence.
  - fold (AI.mark_additional st) in Hr, He. fold st1 in Hr, He.
    exfalso. rewrite E2 in Hst'. rewrite E13 in Hst'.
    assert (HKf : filter (nonempty_at st1) (AI.knowledge st1) = AI.knowledge st1).
    { apply (f_equal AI.knowledge) in Hst'. exact Hst'. }
    rewrite <- HKf in Hr. apply list_elem_of_filter in Hr as [Hne _].
    unfold nonempty_at in Hne. rewrite He in Hne. by rewrite size_empty in Hne.
Qed.

(** C7.  The loop leaves on the comparison of a pass exactly when that pass
    has not changed the knowledge read by value, and goes on with the next
    pass otherwise; a pass on which it leaves has changed nothing in the
    engine, and one more pass on the settled engine returns the same engine
    again (same knowledge, [safes] and [mines]). *)
Theorem fixed_point_stability budget st st' flag :
  wf st → AI.pass budget st = Ok (st', flag) →
  (flag = true ↔ vals st' = vals st)
  ∧ (flag = true → ∀ fuel, AI.propagate budget (S fuel) st = Ok st')
  ∧ (flag = false → ∀ fuel, AI.propagate budget (S fuel) st = AI.propagate budget fuel st')
  ∧ (flag = true → st' = st ∧ AI.pass budget st' = Ok (st', true)).
Proof.
  intros Hwf Hp. split_and!.
  - split.
    + intros ->. by rewrite (pass_true_same _ _ _ Hwf Hp).
    + intros Hv. destruct flag; [done|].
      pose proof (pass_false_weight _ _ _ Hwf Hp) as Hlt.
      apply weight_vals in Hv. lia.
  - intros -> fuel. by rewrite propagate_S, Hp.
  - intros -> fuel. by rewrite propagate_S, Hp.
  - intros ->. pose proof (pass_true_same _ _ _ Hwf Hp) as ->. done.
Qed.

Lemma fixed_point_stability_witness :
  let st := AI.mk 8 8 ∅ ∅ ∅ [0] None [sentence_A] in
  wf st ∧ AI.pass 2 st = Ok (st, true)
  ∧ ((true = true ↔ vals st = vals st)
     ∧ (true = true → ∀ fuel, AI.propagate 2 (S fuel) st = Ok st)
     ∧ (true = false → ∀ fuel, AI.propagate 2 (S fuel) st = AI.propagate 2 fuel st)
     ∧ (true = true → st = st ∧ AI.pass 2 st = Ok (st, true))).
Proof.
  cbn zeta.
  assert (Hwf : wf (AI.mk 8 8 ∅ ∅ ∅ [0] None [sentence_A])).
  { apply Forall_singleton. simpl. lia. }
  assert (Hp : AI.pass 2 (AI.mk 8 8 ∅ ∅ ∅ [0] None [sentence_A])
               = Ok (AI.mk 8 8 ∅ ∅ ∅ [0] None [sentence_A], true)).
  { by vm_compute. }
  split; [exact Hwf|]. split; [exact Hp|].
  exact (fixed_point_stability 2 _ _ true Hwf Hp).
Defined.

(** The engine a terminated loop returns is settled: one more pass leaves
    on its comparison and returns it unchanged. *)
Lemma propagate_settled budget fuel st st' :
  wf st → AI.propagate budget fuel st = Ok st' →
  AI.pass budget st' = Ok (st', true).
Proof.
  revert st. induction fuel as [|fuel IH]; intros st Hwf H; [done|].
  rewrite propagate_S in H.
  destruct (AI.pass budget st) as [[st1 []]| |] eqn:Hp; try done.
  - injection H as <-. pose proof (pass_true_same _ _ _ Hwf Hp) as ->. done.
  - apply (IH st1); [|done]. by destruct (pass_progress _ _ _ _ Hwf Hp).
Qed.
